(** * ichnaea.models.cell: cell identity keys, key matching and entity defaults

    A shallow embedding of [ichnaea/models/cell.py].  Python values are a
    small inductive type, dictionaries and attribute tables are finite maps
    from names to values, exceptions are an explicit result type, and the
    system clock read by [util.utcnow] is threaded as state. *)

From Stdlib Require Import ZArith Reals.
From stdpp Require Import base option gmap strings list fin_maps.

Local Open Scope Z_scope.
Local Open Scope string_scope.

(** ** Python values *)

(** The values that occur in identity fields, counters, flags and
    timestamps.  [VDatetime t] is a [datetime]; [t] counts microseconds
    since the epoch.  Positions are floats and are kept apart, as real
    numbers, in [Geocalc]. *)
Inductive value : Type :=
| VNone
| VBool (b : bool)
| VInt (n : Z)
| VStr (s : string)
| VDatetime (t : Z).

#[global] Instance value_eq_dec : EqDecision value.
Proof. solve_decision. Defined.

(** Python truth value testing, as used by [not kw['lac']]. *)
Definition truthy (v : value) : bool :=
  match v with
  | VNone => false
  | VBool b => b
  | VInt n => negb (Z.eqb n 0)
  | VStr s => negb (String.eqb s "")
  | VDatetime _ => true
  end.

(** ** Exceptions *)

(** [d[k]] on a dict raises [KeyError]; [o.a] on an object raises
    [AttributeError].  Both carry the name that was looked up. *)
Inductive exn : Type :=
| KeyError (k : string)
| AttributeError (a : string).

Inductive exn_class : Type := KeyErrorClass | AttributeErrorClass.

Definition class_of (e : exn) : exn_class :=
  match e with
  | KeyError _ => KeyErrorClass
  | AttributeError _ => AttributeErrorClass
  end.

#[global] Instance exn_eq_dec : EqDecision exn.
Proof. solve_decision. Defined.

Inductive result (A : Type) : Type :=
| Ok (a : A)
| Raise (e : exn).
Arguments Ok {A} a.
Arguments Raise {A} e.

#[global] Instance result_ret : MRet result := λ A a, Ok a.
#[global] Instance result_bind : MBind result := λ A B f m,
  match m with
  | Ok a => f a
  | Raise e => Raise e
  end.

Definition raises {A} (r : result A) : Prop := ∃ e, r = Raise e.

(** ** Sources of key fields *)

(** [to_cellkey] distinguishes a [dict] from any other object by
    [isinstance(obj, dict)].  [Dict d] is a plain dict: a [dict], or a
    subclass that keeps [dict]'s own lookup, so that a missing key raises
    [KeyError].  A subclass that defines [__missing__] (a [defaultdict], a
    [Counter]) answers a missing key with a default instead of raising; it
    is not a value of this type.  [Object attrs] is any other object, with
    the attributes it has; a missing attribute raises [AttributeError]. *)
Inductive source : Type :=
| Dict (d : gmap string value)
| Object (attrs : gmap string value).

(** [d[k]] on a plain dict: the stored value, or [KeyError] for a key that
    is not stored. *)
Definition getitem (d : gmap string value) (k : string) : result value :=
  match d !! k with
  | Some v => Ok v
  | None => Raise (KeyError k)
  end.

(** [o.a] *)
Definition getattr (attrs : gmap string value) (a : string) : result value :=
  match attrs !! a with
  | Some v => Ok v
  | None => Raise (AttributeError a)
  end.

(** The fields a source carries, whatever its shape. *)
Definition source_fields (obj : source) : gmap string value :=
  match obj with Dict d => d | Object attrs => attrs end.

(** ** Identity key types *)

(** [CellKey = namedtuple('CellKey', 'radio mcc mnc lac cid')] *)
Record CellKey : Type := mkCellKey {
  ck_radio : value; ck_mcc : value; ck_mnc : value; ck_lac : value;
  ck_cid : value }.

(** [CellKeyPsc = namedtuple('CellKey', 'radio mcc mnc lac cid psc')] *)
Record CellKeyPsc : Type := mkCellKeyPsc {
  ckp_radio : value; ckp_mcc : value; ckp_mnc : value; ckp_lac : value;
  ckp_cid : value; ckp_psc : value }.

(** [CellAreaKey = namedtuple('CellAreaKey', 'radio mcc mnc lac')] *)
Record CellAreaKey : Type := mkCellAreaKey {
  cak_radio : value; cak_mcc : value; cak_mnc : value; cak_lac : value }.

#[global] Instance CellKey_eq_dec : EqDecision CellKey.
Proof. solve_decision. Defined.
#[global] Instance CellKeyPsc_eq_dec : EqDecision CellKeyPsc.
Proof. solve_decision. Defined.
#[global] Instance CellAreaKey_eq_dec : EqDecision CellAreaKey.
Proof. solve_decision. Defined.

(** The named fields of each tuple class. *)
Definition CellKey_fields (k : CellKey) : gmap string value :=
  <["radio" := ck_radio k]> (<["mcc" := ck_mcc k]> (<["mnc" := ck_mnc k]>
  (<["lac" := ck_lac k]> (<["cid" := ck_cid k]> ∅)))).

Definition CellKeyPsc_fields (k : CellKeyPsc) : gmap string value :=
  <["radio" := ckp_radio k]> (<["mcc" := ckp_mcc k]> (<["mnc" := ckp_mnc k]>
  (<["lac" := ckp_lac k]> (<["cid" := ckp_cid k]> (<["psc" := ckp_psc k]> ∅))))).

Definition CellAreaKey_fields (k : CellAreaKey) : gmap string value :=
  <["radio" := cak_radio k]> (<["mcc" := cak_mcc k]> (<["mnc" := cak_mnc k]>
  (<["lac" := cak_lac k]> ∅))).

(** A key handed to [join_cellkey] is an instance of one of the three
    tuple classes. *)
Inductive key : Type :=
| KCell (k : CellKey)
| KCellPsc (k : CellKeyPsc)
| KCellArea (k : CellAreaKey).

Definition key_fields (k : key) : gmap string value :=
  match k with
  | KCell k => CellKey_fields k
  | KCellPsc k => CellKeyPsc_fields k
  | KCellArea k => CellAreaKey_fields k
  end.

(** Field access on a key: every class has the four area fields, two of
    them have [cid], and only [CellKeyPsc] has [psc]. *)
Definition key_radio (k : key) : value :=
  match k with
  | KCell k => ck_radio k | KCellPsc k => ckp_radio k | KCellArea k => cak_radio k
  end.

Definition key_mcc (k : key) : value :=
  match k with
  | KCell k => ck_mcc k | KCellPsc k => ckp_mcc k | KCellArea k => cak_mcc k
  end.

Definition key_mnc (k : key) : value :=
  match k with
  | KCell k => ck_mnc k | KCellPsc k => ckp_mnc k | KCellArea k => cak_mnc k
  end.

Definition key_lac (k : key) : value :=
  match k with
  | KCell k => ck_lac k | KCellPsc k => ckp_lac k | KCellArea k => cak_lac k
  end.

Definition key_cid (k : key) : option value :=
  match k with
  | KCell k => Some (ck_cid k) | KCellPsc k => Some (ckp_cid k) | KCellArea _ => None
  end.

Definition key_psc (k : key) : option value :=
  match k with
  | KCellPsc k => Some (ckp_psc k) | _ => None
  end.

(** [isinstance(k, CellKeyPsc)] *)
Definition isinstance_CellKeyPsc (k : key) : bool :=
  match k with KCellPsc _ => true | _ => false end.

(** [hasattr(k, a)] on a key. *)
Definition key_hasattr (k : key) (a : string) : bool :=
  bool_decide (is_Some (key_fields k !! a)).

(** A named tuple is not a [dict]: as a source it is a field-bearing object. *)
Definition CellKey_as_source (k : CellKey) : source :=
  Object (CellKey_fields k).

Definition CellKeyPsc_as_source (k : CellKeyPsc) : source :=
  Object (CellKeyPsc_fields k).

(** ** Key normalization *)

Definition to_cellkey (obj : source) : result CellKey :=
  match obj with
  | Dict d =>
      radio ← getitem d "radio";
      mcc ← getitem d "mcc";
      mnc ← getitem d "mnc";
      lac ← getitem d "lac";
      cid ← getitem d "cid";
      mret (mkCellKey radio mcc mnc lac cid)
  | Object o =>
      radio ← getattr o "radio";
      mcc ← getattr o "mcc";
      mnc ← getattr o "mnc";
      lac ← getattr o "lac";
      cid ← getattr o "cid";
      mret (mkCellKey radio mcc mnc lac cid)
  end.

Definition to_cellkey_psc (obj : source) : result CellKeyPsc :=
  match obj with
  | Dict d =>
      radio ← getitem d "radio";
      mcc ← getitem d "mcc";
      mnc ← getitem d "mnc";
      lac ← getitem d "lac";
      cid ← getitem d "cid";
      psc ← getitem d "psc";
      mret (mkCellKeyPsc radio mcc mnc lac cid psc)
  | Object o =>
      radio ← getattr o "radio";
      mcc ← getattr o "mcc";
      mnc ← getattr o "mnc";
      lac ← getattr o "lac";
      cid ← getattr o "cid";
      psc ← getattr o "psc";
      mret (mkCellKeyPsc radio mcc mnc lac cid psc)
  end.

(** The fields each normalizer reads, in the order it reads them. *)
Definition cellkey_required : list string :=
  ["radio"; "mcc"; "mnc"; "lac"; "cid"].

Definition cellkey_psc_required : list string :=
  ["radio"; "mcc"; "mnc"; "lac"; "cid"; "psc"].

(** The first name of [names] that [m] does not define. *)
Fixpoint first_absent (m : gmap string value) (names : list string)
  : option string :=
  match names with
  | [] => None
  | a :: rest =>
      match m !! a with
      | Some _ => first_absent m rest
      | None => Some a
      end
  end.

(** The exception a lookup of [a] raises on a source of the shape of [obj]. *)
Definition lookup_error (obj : source) (a : string) : exn :=
  match obj with
  | Dict _ => KeyError a
  | Object _ => AttributeError a
  end.

(** One lookup of either shape: the value, or the shape's own exception. *)
Definition lookup_field (obj : source) (a : string) : result value :=
  match obj with
  | Dict d => getitem d a
  | Object o => getattr o a
  end.

(** ** Mapped classes as schema descriptors *)

Inductive sqltype : Type := TinyInteger | SmallInteger | Integer | Boolean.

(** [Column(type(unsigned=...), autoincrement=False)] *)
Record Column : Type := mkColumn { col_type : sqltype; col_unsigned : bool }.

(** What [model.a] evaluates to on a mapped class: the attribute bound to
    the name [a], backed by the column declared under that name.  The class
    that owns the attribute is not recorded, so predicates built on
    different classes are compared through [conditions] only, field by
    field and value by value. *)
Record InstrumentedAttribute : Type := mkAttr {
  attr_key : string; attr_column : Column }.

(** [model.a == v] builds an SQL equality expression instead of comparing. *)
Inductive criterion : Type :=
| BinaryEq (lhs : InstrumentedAttribute) (rhs : value).

Definition crit_field (c : criterion) : string :=
  match c with BinaryEq lhs _ => attr_key lhs end.

Definition crit_value (c : criterion) : value :=
  match c with BinaryEq _ rhs => rhs end.

#[global] Instance sqltype_eq_dec : EqDecision sqltype.
Proof. solve_decision. Defined.
#[global] Instance Column_eq_dec : EqDecision Column.
Proof. solve_decision. Defined.
#[global] Instance InstrumentedAttribute_eq_dec : EqDecision InstrumentedAttribute.
Proof. solve_decision. Defined.
#[global] Instance criterion_eq_dec : EqDecision criterion.
Proof. solve_decision. Defined.

(** A model class is described by the columns it declares, by name.  Every
    declared attribute is a column object, so none of them is [None]. *)
Abbreviation model := (gmap string Column).

(** [model.a] *)
Definition model_getattr (m : model) (a : string)
  : result InstrumentedAttribute :=
  match m !! a with
  | Some c => Ok (mkAttr a c)
  | None => Raise (AttributeError a)
  end.

(** [getattr(model, a, None)]; Python's [None] is [None] here. *)
Definition model_getattr_default (m : model) (a : string)
  : option InstrumentedAttribute :=
  mkAttr a <$> m !! a.

(** [x is not None] *)
Definition is_not_None {A} (x : option A) : bool :=
  match x with Some _ => true | None => false end.

(** [hasattr(model, a)] *)
Definition model_hasattr (m : model) (a : string) : bool :=
  bool_decide (is_Some (m !! a)).

(** [k.a] on a key. *)
Definition key_getattr (k : key) (a : string) : result value :=
  getattr (key_fields k) a.

(** [model.a == k.a]; the left operand is evaluated first. *)
Definition eq_on (m : model) (k : key) (a : string) : result criterion :=
  lhs ← model_getattr m a;
  rhs ← key_getattr k a;
  mret (BinaryEq lhs rhs).

(** ** The composite-key matcher *)

Definition join_cellkey (m : model) (k : key) : result (list criterion) :=
  c_radio ← eq_on m k "radio";
  c_mcc ← eq_on m k "mcc";
  c_mnc ← eq_on m k "mnc";
  c_lac ← eq_on m k "lac";
  let crit := [c_radio; c_mcc; c_mnc; c_lac] in
  crit ←
    (if isinstance_CellKeyPsc k && is_not_None (model_getattr_default m "psc")
     then c_psc ← eq_on m k "psc"; mret (crit ++ [c_psc])%list
     else mret crit);
  crit ←
    (if model_hasattr m "cid" && key_hasattr k "cid"
     then c_cid ← eq_on m k "cid"; mret (crit ++ [c_cid])%list
     else mret crit);
  mret crit.

(** The columns each mixin of this module declares. *)
Definition CellAreaKeyMixin : model :=
  <["radio" := mkColumn TinyInteger false]>
  (<["mcc" := mkColumn SmallInteger false]>
  (<["mnc" := mkColumn SmallInteger false]>
  (<["lac" := mkColumn SmallInteger true]> ∅))).

Definition CellAreaMixin : model :=
  <["range" := mkColumn Integer false]>
  (<["avg_cell_range" := mkColumn Integer false]>
  (<["num_cells" := mkColumn Integer true]> CellAreaKeyMixin)).

Definition CellKeyMixin : model :=
  <["cid" := mkColumn Integer true]> CellAreaKeyMixin.

Definition CellKeyPscMixin : model :=
  <["psc" := mkColumn SmallInteger false]> CellKeyMixin.

Definition CellMixin : model := CellKeyPscMixin.

(** The five mapped classes, with the identity and aggregate columns this
    module gives them; the position, time and measure columns come from
    mixins of other modules and are never consulted by the matcher. *)
Definition Cell : model := CellMixin.

Definition OCIDCell : model :=
  <["changeable" := mkColumn Boolean false]> CellMixin.

Definition CellArea : model := CellAreaMixin.

Definition OCIDCellArea : model := CellAreaMixin.

Definition CellBlacklist : model := CellKeyMixin.

Definition crit_column (c : criterion) : Column :=
  match c with BinaryEq lhs _ => attr_column lhs end.

(** The key is an instance of [CellKeyPsc]. *)
Definition is_CellKeyPsc (k : key) : Prop := ∃ kp, k = KCellPsc kp.

(** The key carries a field named [a]. *)
Definition carries (k : key) (a : string) : Prop := is_Some (key_fields k !! a).

(** The two tests that guard the optional conditions. *)
Definition psc_matched (m : model) (k : key) : bool :=
  isinstance_CellKeyPsc k && model_hasattr m "psc".

Definition cid_matched (m : model) (k : key) : bool :=
  model_hasattr m "cid" && key_hasattr k "cid".

(** A schema descriptor declares at least the area identity columns. *)
Definition declares (m : model) (a : string) : Prop := is_Some (m !! a).

Definition schema_descriptor (m : model) : Prop :=
  declares m "radio" ∧ declares m "mcc" ∧ declares m "mnc" ∧ declares m "lac".

(** The predicate as pairs of field name and expected value, or the
    exception in its place. *)
Definition conditions (r : result (list criterion))
  : result (list (string * value)) :=
  match r with
  | Ok crit => Ok ((λ c, (crit_field c, crit_value c)) <$> crit)
  | Raise e => Raise e
  end.

(** The predicate has an equality condition on field [a]. *)
Definition has_condition (crit : list criterion) (a : string) : Prop :=
  ∃ c, c ∈ crit ∧ crit_field c = a.

(** ** Entity construction *)

(** [**kw]: the keyword arguments of a constructor. *)
Abbreviation kwargs := (gmap string value).

(** [k not in kw or not kw[k]] *)
Definition absent_or_falsy (kw : kwargs) (k : string) : bool :=
  match kw !! k with
  | None => true
  | Some v => negb (truthy v)
  end.

(** [k not in kw] *)
Definition absent (kw : kwargs) (k : string) : bool :=
  match kw !! k with
  | None => true
  | Some _ => false
  end.

Section Entities.

(** The state of the world that [util.utcnow] reads, and the reading
    itself: the current time in microseconds and the world afterwards. *)
Context {World : Type} (utcnow : World → Z * World).

(** Computations that may read the clock. *)
Definition Clocked (A : Type) : Type := World → A * World.

Definition cret {A} (a : A) : Clocked A := λ w, (a, w).

Definition cbind {A B} (c : Clocked A) (f : A → Clocked B) : Clocked B :=
  λ w, let (a, w') := c w in f a w'.

(** [if k not in kw: kw[k] = util.utcnow()] *)
Definition default_utcnow (k : string) (kw : kwargs) : Clocked kwargs :=
  if absent kw k
  then λ w, let (t, w') := utcnow w in (<[k := VDatetime t]> kw, w')
  else cret kw.

(** [if k not in kw: kw[k] = v] *)
Definition default_absent (k : string) (v : value) (kw : kwargs)
  : Clocked kwargs :=
  cret (if absent kw k then <[k := v]> kw else kw).

(** [if k not in kw or not kw[k]: kw[k] = v] *)
Definition default_falsy (k : string) (v : value) (kw : kwargs)
  : Clocked kwargs :=
  cret (if absent_or_falsy kw k then <[k := v]> kw else kw).

(** Each constructor rewrites [kw] and hands it to the constructor of the
    declarative base, which stores every entry as an attribute of the new
    row.  The entity is identified with the keyword table handed over. *)
Definition Cell_init (kw : kwargs) : Clocked kwargs :=
  cbind (default_utcnow "created" kw) (λ kw,
  cbind (default_utcnow "modified" kw) (λ kw,
  cbind (default_falsy "lac" (VInt 0) kw) (λ kw,
  cbind (default_falsy "cid" (VInt 0) kw) (λ kw,
  cbind (default_absent "range" (VInt 0) kw) (λ kw,
  cbind (default_absent "new_measures" (VInt 0) kw) (λ kw,
  cbind (default_absent "total_measures" (VInt 0) kw) (λ kw,
  cret kw))))))).

Definition OCIDCell_init (kw : kwargs) : Clocked kwargs :=
  cbind (default_utcnow "created" kw) (λ kw,
  cbind (default_utcnow "modified" kw) (λ kw,
  cbind (default_falsy "lac" (VInt 0) kw) (λ kw,
  cbind (default_falsy "cid" (VInt 0) kw) (λ kw,
  cbind (default_absent "range" (VInt 0) kw) (λ kw,
  cbind (default_absent "total_measures" (VInt 0) kw) (λ kw,
  cbind (default_absent "changeable" (VBool true) kw) (λ kw,
  cret kw))))))).

Definition CellArea_init (kw : kwargs) : Clocked kwargs :=
  cbind (default_utcnow "created" kw) (λ kw,
  cbind (default_utcnow "modified" kw) (λ kw,
  cbind (default_absent "range" (VInt 0) kw) (λ kw,
  cbind (default_absent "avg_cell_range" (VInt 0) kw) (λ kw,
  cbind (default_absent "num_cells" (VInt 0) kw) (λ kw,
  cret kw))))).

Definition OCIDCellArea_init (kw : kwargs) : Clocked kwargs :=
  cbind (default_utcnow "created" kw) (λ kw,
  cbind (default_utcnow "modified" kw) (λ kw,
  cbind (default_absent "range" (VInt 0) kw) (λ kw,
  cbind (default_absent "avg_cell_range" (VInt 0) kw) (λ kw,
  cbind (default_absent "num_cells" (VInt 0) kw) (λ kw,
  cret kw))))).

Definition CellBlacklist_init (kw : kwargs) : Clocked kwargs :=
  cbind (default_utcnow "time" kw) (λ kw,
  cbind (default_absent "count" (VInt 1) kw) (λ kw,
  cret kw)).

End Entities.

(** The entity kinds and their constructors. *)
Inductive entity_kind : Type :=
| KindCell | KindOCIDCell | KindCellArea | KindOCIDCellArea | KindCellBlacklist.

Definition construct {World : Type} (utcnow : World → Z * World)
  (kind : entity_kind) : kwargs → Clocked (World := World) kwargs :=
  match kind with
  | KindCell => Cell_init utcnow
  | KindOCIDCell => OCIDCell_init utcnow
  | KindCellArea => CellArea_init utcnow
  | KindOCIDCellArea => OCIDCellArea_init utcnow
  | KindCellBlacklist => CellBlacklist_init utcnow
  end.

(** [CELL_MODEL_KEYS] *)
Definition CELL_MODEL_KEYS : gmap string entity_kind :=
  <["cell" := KindCell]> (<["cell_area" := KindCellArea]>
  (<["ocid_cell" := KindOCIDCell]> (<["ocid_cell_area" := KindOCIDCellArea]> ∅))).

(** The mapped class of each entity kind. *)
Definition model_of (kind : entity_kind) : model :=
  match kind with
  | KindCell => Cell
  | KindOCIDCell => OCIDCell
  | KindCellArea => CellArea
  | KindOCIDCellArea => OCIDCellArea
  | KindCellBlacklist => CellBlacklist
  end.

(** [post c w Q]: running [c] in world [w] ends in a result and a world
    that satisfy [Q]. *)
Definition post {World A : Type} (c : Clocked (World := World) A) (w : World)
  (Q : A → World → Prop) : Prop :=
  Q (c w).1 (c w).2.

(** A clock that reads its state and advances by one microsecond. *)
Definition ticking_clock (now : Z) : Z * Z := (now, now + 1).

(** Whether [kw] supplies every timestamp the constructor of [kind] would
    otherwise read from the clock. *)
Definition timestamps_supplied (kind : entity_kind) (kw : kwargs) : Prop :=
  match kind with
  | KindCellBlacklist => is_Some (kw !! "time")
  | _ => is_Some (kw !! "created") ∧ is_Some (kw !! "modified")
  end.

(** ** Bounding box of an imported cell *)

Module Geocalc.
Local Open Scope R_scope.

(** Modelled from the spec: the module [ichnaea.geocalc], which holds
    [add_meters_to_latitude] and [add_meters_to_longitude], is not part of
    this file.  A displacement in meters becomes degrees of latitude by a
    constant 111,320 meters per degree, and degrees of longitude by the
    same constant scaled with the cosine of the latitude in radians.
    Coordinates are real numbers. *)
Definition meters_per_degree_latitude : R := 111320.

(** Modelled from the spec: the latitude offset of [ichnaea.geocalc], a
    constant number of meters per degree. *)
Definition meters_to_lat_degrees (r : R) : R :=
  r / meters_per_degree_latitude.

(** Modelled from the spec: the longitude offset of [ichnaea.geocalc], which
    divides by the meters per degree of latitude times the cosine of the
    latitude in radians. *)
Definition meters_to_lon_degrees (r lat : R) : R :=
  r / (meters_per_degree_latitude * cos (lat * PI / 180)).

(** Modelled from the spec: [geocalc.add_meters_to_latitude], absent from
    this file; the latitude displaced by a signed distance in meters. *)
Definition add_meters_to_latitude (lat distance : R) : R :=
  lat + meters_to_lat_degrees distance.

(** Modelled from the spec: [geocalc.add_meters_to_longitude], absent from
    this file; the longitude displaced by a signed distance in meters at
    the given latitude. *)
Definition add_meters_to_longitude (lat lon distance : R) : R :=
  lon + meters_to_lon_degrees distance lat.

(** The position and the integer [range] column of an [OCIDCell] row. *)
Record OCIDCell_row : Type := mkRow { lat : R; lon : R; range : Z }.

Definition min_lat (self : OCIDCell_row) : R :=
  add_meters_to_latitude (lat self) (IZR (- range self)).

Definition max_lat (self : OCIDCell_row) : R :=
  add_meters_to_latitude (lat self) (IZR (range self)).

Definition min_lon (self : OCIDCell_row) : R :=
  add_meters_to_longitude (lat self) (lon self) (IZR (- range self)).

Definition max_lon (self : OCIDCell_row) : R :=
  add_meters_to_longitude (lat self) (lon self) (IZR (range self)).
End Geocalc.

(** ** Relations between the key classes and the mapped classes *)

Definition CellAreaKey_as_source (k : CellAreaKey) : source :=
  Object (CellAreaKey_fields k).

(** A [CellKeyPsc] without its psc, and any key cut down to its area. *)
Definition CellKey_of_psc (k : CellKeyPsc) : CellKey :=
  mkCellKey (ckp_radio k) (ckp_mcc k) (ckp_mnc k) (ckp_lac k) (ckp_cid k).

Definition CellAreaKey_of (k : key) : CellAreaKey :=
  mkCellAreaKey (key_radio k) (key_mcc k) (key_mnc k) (key_lac k).

(** The field names of each tuple class, in declaration order. *)
Definition key_names (k : key) : list string :=
  match k with
  | KCell _ => ["radio"; "mcc"; "mnc"; "lac"; "cid"]
  | KCellPsc _ => ["radio"; "mcc"; "mnc"; "lac"; "cid"; "psc"]
  | KCellArea _ => ["radio"; "mcc"; "mnc"; "lac"]
  end.

(** [__tablename__] of each mapped class. *)
Definition tablename (kind : entity_kind) : string :=
  match kind with
  | KindCell => "cell"
  | KindOCIDCell => "ocid_cell"
  | KindCellArea => "cell_area"
  | KindOCIDCellArea => "ocid_cell_area"
  | KindCellBlacklist => "cell_blacklist"
  end.

(** The [PrimaryKeyConstraint] in [__table_args__] of each mapped class. *)
Definition primary_key (kind : entity_kind) : list string :=
  match kind with
  | KindCell => ["radio"; "mcc"; "mnc"; "lac"; "cid"]
  | KindOCIDCell => ["radio"; "mcc"; "mnc"; "lac"; "cid"]
  | KindCellArea => ["radio"; "mcc"; "mnc"; "lac"]
  | KindOCIDCellArea => ["radio"; "mcc"; "mnc"; "lac"]
  | KindCellBlacklist => ["radio"; "mcc"; "mnc"; "lac"; "cid"]
  end.

(** The keyword names each constructor assigns when it has to, in the
    order of its [if] statements. *)
Definition default_keys (kind : entity_kind) : list string :=
  match kind with
  | KindCell =>
      ["created"; "modified"; "lac"; "cid"; "range"; "new_measures";
       "total_measures"]
  | KindOCIDCell =>
      ["created"; "modified"; "lac"; "cid"; "range"; "total_measures";
       "changeable"]
  | KindCellArea =>
      ["created"; "modified"; "range"; "avg_cell_range"; "num_cells"]
  | KindOCIDCellArea =>
      ["created"; "modified"; "range"; "avg_cell_range"; "num_cells"]
  | KindCellBlacklist => ["time"; "count"]
  end.

(** The first name of [names] that the model does not declare. *)
Fixpoint first_undeclared (m : model) (names : list string) : option string :=
  match names with
  | [] => None
  | a :: rest =>
      match m !! a with
      | Some _ => first_undeclared m rest
      | None => Some a
      end
  end.

(** A clock whose readings never go back. *)
Definition monotone_clock {World : Type} (utcnow : World → Z * World) : Prop :=
  ∀ w, ((utcnow w).1 ≤ (utcnow (utcnow w).2).1)%Z.

(** * Properties *)

(** ** Lookups and the result monad *)

Lemma getitem_Some d k v : d !! k = Some v → getitem d k = Ok v.
Proof. unfold getitem. by intros ->. Qed.

Lemma getitem_None d k : d !! k = None → getitem d k = Raise (KeyError k).
Proof. unfold getitem. by intros ->. Qed.

Lemma getattr_Some o a v : o !! a = Some v → getattr o a = Ok v.
Proof. unfold getattr. by intros ->. Qed.

Lemma getattr_None o a : o !! a = None → getattr o a = Raise (AttributeError a).
Proof. unfold getattr. by intros ->. Qed.

Lemma bind_Ok {A B} (a : A) (f : A → result B) : (Ok a ≫= f) = f a.
Proof. reflexivity. Qed.

Lemma lookup_field_Some obj a v :
  source_fields obj !! a = Some v → lookup_field obj a = Ok v.
Proof. destruct obj; simpl; [apply getitem_Some | apply getattr_Some]. Qed.

Lemma lookup_field_None obj a :
  source_fields obj !! a = None → lookup_field obj a = Raise (lookup_error obj a).
Proof. destruct obj; simpl; [apply getitem_None | apply getattr_None]. Qed.

(** Both branches of each normalizer are the same chain of lookups. *)
Lemma to_cellkey_unfold obj :
  to_cellkey obj =
    (radio ← lookup_field obj "radio";
     mcc ← lookup_field obj "mcc";
     mnc ← lookup_field obj "mnc";
     lac ← lookup_field obj "lac";
     cid ← lookup_field obj "cid";
     mret (mkCellKey radio mcc mnc lac cid)).
Proof. by destruct obj. Qed.

Lemma to_cellkey_psc_unfold obj :
  to_cellkey_psc obj =
    (radio ← lookup_field obj "radio";
     mcc ← lookup_field obj "mcc";
     mnc ← lookup_field obj "mnc";
     lac ← lookup_field obj "lac";
     cid ← lookup_field obj "cid";
     psc ← lookup_field obj "psc";
     mret (mkCellKeyPsc radio mcc mnc lac cid psc)).
Proof. by destruct obj. Qed.

Lemma first_absent_None m names :
  first_absent m names = None ↔ ∀ a, a ∈ names → is_Some (m !! a).
Proof.
  induction names as [|b rest IH]; simpl.
  - split; [intros _ a Ha; by apply elem_of_nil in Ha | done].
  - destruct (m !! b) as [v|] eqn:Hb.
    + rewrite IH. split.
      * intros H a [->|Ha]%elem_of_cons; [by rewrite Hb | by apply H].
      * intros H a Ha. apply H. by right.
    + split; [done | intros H].
      destruct (H b) as [v Hv]; [by left | congruence].
Qed.

Lemma first_absent_Some m names a :
  first_absent m names = Some a → a ∈ names ∧ m !! a = None.
Proof.
  induction names as [|b rest IH]; simpl; [done |].
  destruct (m !! b) as [v|] eqn:Hb.
  - intros [? ?]%IH. split; [by right | done].
  - intros [= <-]. split; [by left | done].
Qed.

Lemma first_absent_is_Some m names :
  is_Some (first_absent m names) ↔ ∃ a, a ∈ names ∧ m !! a = None.
Proof.
  split.
  - intros [a Ha]. exists a. by apply first_absent_Some.
  - intros (a & Ha & Hnone).
    destruct (first_absent m names) as [b|] eqn:Hf; [by eexists |].
    destruct (proj1 (first_absent_None m names) Hf a Ha) as [v Hv]. congruence.
Qed.

(** What each normalizer does, by the first required field that is absent. *)
Lemma to_cellkey_outcome obj :
  match first_absent (source_fields obj) cellkey_required with
  | Some a => to_cellkey obj = Raise (lookup_error obj a)
  | None => ∃ k, to_cellkey obj = Ok k
  end.
Proof.
  rewrite to_cellkey_unfold. unfold cellkey_required, first_absent.
  repeat match goal with
  | |- context [source_fields obj !! ?a] =>
      let H := fresh "H" in
      destruct (source_fields obj !! a) eqn:H;
      [rewrite (lookup_field_Some _ _ _ H), bind_Ok
      |by rewrite (lookup_field_None _ _ H)]
  end.
  by eexists.
Qed.

Lemma to_cellkey_psc_outcome obj :
  match first_absent (source_fields obj) cellkey_psc_required with
  | Some a => to_cellkey_psc obj = Raise (lookup_error obj a)
  | None => ∃ k, to_cellkey_psc obj = Ok k
  end.
Proof.
  rewrite to_cellkey_psc_unfold. unfold cellkey_psc_required, first_absent.
  repeat match goal with
  | |- context [source_fields obj !! ?a] =>
      let H := fresh "H" in
      destruct (source_fields obj !! a) eqn:H;
      [rewrite (lookup_field_Some _ _ _ H), bind_Ok
      |by rewrite (lookup_field_None _ _ H)]
  end.
  by eexists.
Qed.

(** Reading off failure from the outcome by first absent field. *)
Lemma outcome_raises {A} (r : result A) (fa : option string) (obj : source) :
  match fa with
  | Some a => r = Raise (lookup_error obj a)
  | None => ∃ k, r = Ok k
  end →
  (raises r ↔ is_Some fa) ∧
  (∀ e, r = Raise e → ∃ a, fa = Some a ∧ e = lookup_error obj a).
Proof.
  destruct fa as [a|]; intros H.
  - split.
    + split; [by eexists | intros _; by exists (lookup_error obj a)].
    + intros e He. exists a. split; [done | congruence].
  - destruct H as [k Hk]. split.
    + split; [intros [e He]; congruence | by intros [a [=]]].
    + intros e He. congruence.
Qed.

(** ** Key normalization *)

(** C2: a source that carries the five fields radio, mcc, mnc, lac and cid,
    whether it is a dict or a field-bearing object, is normalized to the
    [CellKey] of exactly those five values; any other source that agrees
    with it on the five fields, of either shape and with whatever extra
    fields, is normalized to the same key. *)
Theorem to_cellkey_extracts (obj : source) (radio mcc mnc lac cid : value) :
  source_fields obj !! "radio" = Some radio →
  source_fields obj !! "mcc" = Some mcc →
  source_fields obj !! "mnc" = Some mnc →
  source_fields obj !! "lac" = Some lac →
  source_fields obj !! "cid" = Some cid →
  to_cellkey obj = Ok (mkCellKey radio mcc mnc lac cid) ∧
  ∀ obj' : source,
    (∀ a, a ∈ cellkey_required →
          source_fields obj' !! a = source_fields obj !! a) →
    to_cellkey obj' = to_cellkey obj.
Proof.
  intros Hr Hm Hn Hl Hc.
  assert (Hall : ∀ o : source,
            (∀ a, a ∈ cellkey_required →
                  source_fields o !! a = source_fields obj !! a) →
            to_cellkey o = Ok (mkCellKey radio mcc mnc lac cid)).
  { intros o Ho. rewrite to_cellkey_unfold.
    rewrite (lookup_field_Some o "radio" radio), bind_Ok
      by (rewrite Ho; [done | set_solver]).
    rewrite (lookup_field_Some o "mcc" mcc), bind_Ok
      by (rewrite Ho; [done | set_solver]).
    rewrite (lookup_field_Some o "mnc" mnc), bind_Ok
      by (rewrite Ho; [done | set_solver]).
    rewrite (lookup_field_Some o "lac" lac), bind_Ok
      by (rewrite Ho; [done | set_solver]).
    rewrite (lookup_field_Some o "cid" cid), bind_Ok
      by (rewrite Ho; [done | set_solver]).
    done. }
  split.
  - by apply Hall.
  - intros obj' Hagree. rewrite (Hall obj' Hagree). symmetry. by apply Hall.
Qed.

Lemma to_cellkey_extracts_witness :
  to_cellkey (Dict (<["psc" := VInt 99]> (CellKey_fields
     (mkCellKey (VInt 1) (VInt 204) (VInt 10) (VInt 1234) (VInt 5678)))))
  = Ok (mkCellKey (VInt 1) (VInt 204) (VInt 10) (VInt 1234) (VInt 5678)).
Proof.
  apply (to_cellkey_extracts
    (Dict (<["psc" := VInt 99]> (CellKey_fields
       (mkCellKey (VInt 1) (VInt 204) (VInt 10) (VInt 1234) (VInt 5678)))))
    (VInt 1) (VInt 204) (VInt 10) (VInt 1234) (VInt 5678));
    vm_compute; reflexivity.
Defined.

(** C3, as the claim has it: whenever both a dict and an object fail to
    normalize, they fail with an exception of the same class.  The empty
    dict raises [KeyError] and the empty object raises [AttributeError]. *)
Lemma missing_field_error_depends_on_shape :
  ¬ (∀ (d o : gmap string value) (e1 e2 : exn),
       to_cellkey (Dict d) = Raise e1 →
       to_cellkey (Object o) = Raise e2 →
       class_of e1 = class_of e2).
Proof.
  intros H.
  specialize (H ∅ ∅ (KeyError "radio") (AttributeError "radio")
                eq_refl eq_refl).
  discriminate H.
Qed.

(** C3, amended: on a source whose lookup of an absent field raises, that
    is a plain dict or a field-bearing object, each normalizer fails
    exactly when one of its required fields (five for [to_cellkey], six for
    [to_cellkey_psc]) is absent from the source; the exception names the
    first absent field in reading order and is a [KeyError] for the dict
    and an [AttributeError] for the object.  A dict subclass with
    [__missing__] is outside [source]: its lookup of an absent field
    returns a default, and the normalizers then succeed. *)
Theorem to_cellkey_raises_iff (obj : source) :
  (raises (to_cellkey obj) ↔
     ∃ a, a ∈ cellkey_required ∧ source_fields obj !! a = None) ∧
  (raises (to_cellkey_psc obj) ↔
     ∃ a, a ∈ cellkey_psc_required ∧ source_fields obj !! a = None) ∧
  (∀ e, to_cellkey obj = Raise e →
     ∃ a, first_absent (source_fields obj) cellkey_required = Some a ∧
          e = match obj with
              | Dict _ => KeyError a
              | Object _ => AttributeError a
              end) ∧
  (∀ e, to_cellkey_psc obj = Raise e →
     ∃ a, first_absent (source_fields obj) cellkey_psc_required = Some a ∧
          e = match obj with
              | Dict _ => KeyError a
              | Object _ => AttributeError a
              end).
Proof.
  rewrite <- !first_absent_is_Some.
  destruct (outcome_raises _ _ _ (to_cellkey_outcome obj)) as [H5 E5].
  destruct (outcome_raises _ _ _ (to_cellkey_psc_outcome obj)) as [H6 E6].
  done.
Qed.

(** C9: a [CellKey] read back as a field-bearing source normalizes to
    itself. *)
Theorem to_cellkey_roundtrip (k : CellKey) :
  to_cellkey (CellKey_as_source k) = Ok k.
Proof. by destruct k. Qed.

Lemma to_cellkey_psc_roundtrip (k : CellKeyPsc) :
  to_cellkey_psc (CellKeyPsc_as_source k) = Ok k.
Proof. by destruct k. Qed.

Example to_cellkey_psc_dict :
  to_cellkey_psc (Dict (CellKeyPsc_fields
    (mkCellKeyPsc (VInt 1) (VInt 204) (VInt 10) (VInt 1234) (VInt 5678) (VInt 99))))
  = Ok (mkCellKeyPsc (VInt 1) (VInt 204) (VInt 10) (VInt 1234) (VInt 5678) (VInt 99)).
Proof. reflexivity. Qed.

Example to_cellkey_ignores_psc :
  to_cellkey (Dict (CellKeyPsc_fields
    (mkCellKeyPsc (VInt 1) (VInt 204) (VInt 10) (VInt 1234) (VInt 5678) (VInt 99))))
  = Ok (mkCellKey (VInt 1) (VInt 204) (VInt 10) (VInt 1234) (VInt 5678)).
Proof. reflexivity. Qed.

Example to_cellkey_area_key_fails :
  to_cellkey (Object (CellAreaKey_fields
    (mkCellAreaKey (VInt 1) (VInt 204) (VInt 10) (VInt 1234))))
  = Raise (AttributeError "cid").
Proof. reflexivity. Qed.

(** ** The composite-key matcher *)

Lemma key_fields_area (k : key) :
  key_fields k !! "radio" = Some (key_radio k) ∧
  key_fields k !! "mcc" = Some (key_mcc k) ∧
  key_fields k !! "mnc" = Some (key_mnc k) ∧
  key_fields k !! "lac" = Some (key_lac k).
Proof. by destruct k as [[]|[]|[]]. Qed.

Lemma key_fields_cid (k : key) : key_fields k !! "cid" = key_cid k.
Proof. by destruct k as [[]|[]|[]]. Qed.

Lemma key_fields_psc (k : key) : key_fields k !! "psc" = key_psc k.
Proof. by destruct k as [[]|[]|[]]. Qed.

Lemma key_psc_isinstance (k : key) :
  isinstance_CellKeyPsc k = is_not_None (key_psc k).
Proof. by destruct k. Qed.

Lemma eq_on_Ok (m : model) (k : key) (a : string) (c : Column) (v : value) :
  m !! a = Some c → key_fields k !! a = Some v →
  eq_on m k a = Ok (BinaryEq (mkAttr a c) v).
Proof.
  intros Hm Hk. unfold eq_on, model_getattr, key_getattr, getattr.
  by rewrite Hm, Hk.
Qed.

(** On a schema descriptor the matcher never raises, and its predicate is
    the four area conditions followed by the optional ones. *)
Lemma join_cellkey_Ok (m : model) (k : key) (cr cm cn cl : Column) :
  m !! "radio" = Some cr → m !! "mcc" = Some cm →
  m !! "mnc" = Some cn → m !! "lac" = Some cl →
  join_cellkey m k =
    Ok ([BinaryEq (mkAttr "radio" cr) (key_radio k);
         BinaryEq (mkAttr "mcc" cm) (key_mcc k);
         BinaryEq (mkAttr "mnc" cn) (key_mnc k);
         BinaryEq (mkAttr "lac" cl) (key_lac k)]
        ++ match key_psc k, m !! "psc" with
           | Some v, Some c => [BinaryEq (mkAttr "psc" c) v]
           | _, _ => []
           end
        ++ match m !! "cid", key_cid k with
           | Some c, Some v => [BinaryEq (mkAttr "cid" c) v]
           | _, _ => []
           end)%list.
Proof.
  intros Hr Hm Hn Hl.
  destruct (key_fields_area k) as (Kr & Km & Kn & Kl).
  pose proof (key_fields_psc k) as Kp.
  pose proof (key_fields_cid k) as Kc.
  unfold join_cellkey.
  rewrite (eq_on_Ok m k "radio" _ _ Hr Kr), bind_Ok.
  rewrite (eq_on_Ok m k "mcc" _ _ Hm Km), bind_Ok.
  rewrite (eq_on_Ok m k "mnc" _ _ Hn Kn), bind_Ok.
  rewrite (eq_on_Ok m k "lac" _ _ Hl Kl), bind_Ok.
  cbv zeta.
  rewrite key_psc_isinstance.
  unfold model_hasattr, key_hasattr, model_getattr_default.
  rewrite Kc.
  destruct (key_psc k) as [p|], (m !! "psc") as [cp|] eqn:Mp;
    destruct (m !! "cid") as [cc|] eqn:Mc, (key_cid k) as [c|];
    cbn [is_not_None fmap option_fmap option_map andb];
    repeat first
      [ rewrite (eq_on_Ok m k "psc" _ _ Mp Kp)
      | rewrite (eq_on_Ok m k "cid" _ _ Mc Kc) ];
    reflexivity.
Qed.

Lemma is_CellKeyPsc_key_psc (k : key) : is_CellKeyPsc k ↔ is_Some (key_psc k).
Proof.
  unfold is_CellKeyPsc. destruct k as [k|k|k]; simpl.
  - split; [by intros [kp ?] | by intros [v ?]].
  - split; [by eexists | intros _; by exists k].
  - split; [by intros [kp ?] | by intros [v ?]].
Qed.


Lemma has_condition_fields (crit : list criterion) (a : string) :
  has_condition crit a ↔ a ∈ crit_field <$> crit.
Proof.
  unfold has_condition. split.
  - intros (c & Hc & <-). apply list_elem_of_fmap. by exists c.
  - intros (c & -> & Hc)%list_elem_of_fmap. by exists c.
Qed.

Lemma psc_matched_spec (m : model) (k : key) :
  psc_matched m k = true ↔ is_CellKeyPsc k ∧ declares m "psc".
Proof.
  unfold psc_matched, model_hasattr, declares.
  rewrite is_CellKeyPsc_key_psc, key_psc_isinstance.
  destruct (key_psc k) as [p|]; simpl.
  - rewrite bool_decide_eq_true. split; [by split | by intros [_ ?]].
  - split; [done | by intros [[? ?] _]].
Qed.

Lemma cid_matched_spec (m : model) (k : key) :
  cid_matched m k = true ↔ declares m "cid" ∧ carries k "cid".
Proof.
  unfold cid_matched, model_hasattr, key_hasattr, declares, carries.
  rewrite andb_true_iff. by rewrite !bool_decide_eq_true.
Qed.

(** The fields of the predicate, in order. *)
Lemma join_cellkey_fields (m : model) (k : key) :
  schema_descriptor m →
  ∃ crit, join_cellkey m k = Ok crit ∧
    crit_field <$> crit =
      (["radio"; "mcc"; "mnc"; "lac"]
       ++ (if psc_matched m k then ["psc"] else [])
       ++ (if cid_matched m k then ["cid"] else []))%list.
Proof.
  intros ([cr Hr] & [cm Hm] & [cn Hn] & [cl Hl]).
  eexists. split; [by apply (join_cellkey_Ok m k cr cm cn cl) |].
  unfold psc_matched, cid_matched, model_hasattr, key_hasattr.
  rewrite key_psc_isinstance, key_fields_cid.
  by destruct (key_psc k), (m !! "psc"), (m !! "cid"), (key_cid k).
Qed.

(** Each condition equates a declared column with the key's own value. *)
Lemma join_cellkey_sound (m : model) (k : key) (crit : list criterion) :
  join_cellkey m k = Ok crit →
  Forall (λ c, m !! crit_field c = Some (crit_column c) ∧
               key_fields k !! crit_field c = Some (crit_value c)) crit.
Proof.
  unfold join_cellkey, eq_on, model_getattr, key_getattr, getattr.
  unfold model_getattr_default, model_hasattr, key_hasattr.
  destruct (m !! "radio") eqn:Mr; [|done].
  destruct (key_fields k !! "radio") eqn:Kr; [|done].
  destruct (m !! "mcc") eqn:Mm; [|done].
  destruct (key_fields k !! "mcc") eqn:Km; [|done].
  destruct (m !! "mnc") eqn:Mn; [|done].
  destruct (key_fields k !! "mnc") eqn:Kn; [|done].
  destruct (m !! "lac") eqn:Ml; [|done].
  destruct (key_fields k !! "lac") eqn:Kl; [|done].
  destruct (m !! "psc") eqn:Mp, (key_fields k !! "psc") eqn:Kp;
    destruct (m !! "cid") eqn:Mc, (key_fields k !! "cid") eqn:Kc;
    destruct (isinstance_CellKeyPsc k); simpl;
    intros [= <-]; by repeat constructor.
Qed.

(** The five mapped classes are schema descriptors. *)
Lemma model_of_schema_descriptor (kind : entity_kind) :
  schema_descriptor (model_of kind).
Proof. destruct kind; repeat split; by eexists. Qed.

Example join_cellkey_area_schema :
  join_cellkey CellArea
    (KCellPsc (mkCellKeyPsc (VInt 1) (VInt 204) (VInt 10) (VInt 1234)
                            (VInt 0) (VInt 5)))
  = Ok [BinaryEq (mkAttr "radio" (mkColumn TinyInteger false)) (VInt 1);
        BinaryEq (mkAttr "mcc" (mkColumn SmallInteger false)) (VInt 204);
        BinaryEq (mkAttr "mnc" (mkColumn SmallInteger false)) (VInt 10);
        BinaryEq (mkAttr "lac" (mkColumn SmallInteger true)) (VInt 1234)].
Proof. reflexivity. Qed.

Example join_cellkey_cell_schema_plain_key :
  crit_field <$> (match join_cellkey Cell
      (KCell (mkCellKey (VInt 1) (VInt 204) (VInt 10) (VInt 1234) (VInt 5678)))
    with Ok crit => crit | Raise _ => [] end)
  = ["radio"; "mcc"; "mnc"; "lac"; "cid"].
Proof. reflexivity. Qed.

Example join_cellkey_without_lac_raises :
  join_cellkey (delete "lac" Cell)
    (KCell (mkCellKey (VInt 1) (VInt 204) (VInt 10) (VInt 1234) (VInt 5678)))
  = Raise (AttributeError "lac").
Proof. reflexivity. Qed.

(** C1: on every schema descriptor and every key the matcher returns a
    predicate and never an error; the predicate has equality conditions on
    radio, mcc, mnc and lac; it has one on psc exactly when the key is a
    [CellKeyPsc] and the schema declares psc; it has one on cid exactly when
    the schema declares cid and the key carries cid; and every condition in
    it equates one of these six columns of the schema with the key's own
    value of that field. *)
Theorem join_cellkey_conditions (m : model) (k : key) :
  schema_descriptor m →
  ∃ crit, join_cellkey m k = Ok crit ∧
    (has_condition crit "radio" ∧ has_condition crit "mcc" ∧
     has_condition crit "mnc" ∧ has_condition crit "lac") ∧
    (has_condition crit "psc" ↔ is_CellKeyPsc k ∧ declares m "psc") ∧
    (has_condition crit "cid" ↔ declares m "cid" ∧ carries k "cid") ∧
    (∀ c, c ∈ crit →
       crit_field c ∈ ["radio"; "mcc"; "mnc"; "lac"; "psc"; "cid"] ∧
       m !! crit_field c = Some (crit_column c) ∧
       key_fields k !! crit_field c = Some (crit_value c)).
Proof.
  intros Hs. destruct (join_cellkey_fields m k Hs) as (crit & Hj & Hf).
  exists crit. split; [done |].
  rewrite !has_condition_fields, Hf, <- psc_matched_spec, <- cid_matched_spec.
  split; [| split; [| split]].
  - destruct (psc_matched m k), (cid_matched m k); simpl;
      rewrite !elem_of_cons; tauto.
  - destruct (psc_matched m k), (cid_matched m k); simpl;
      rewrite !elem_of_cons, elem_of_nil; split; (tauto || by intuition).
  - destruct (psc_matched m k), (cid_matched m k); simpl;
      rewrite !elem_of_cons, elem_of_nil; split; (tauto || by intuition).
  - intros c Hc. split.
    + assert (Hin : crit_field c ∈ crit_field <$> crit)
        by (apply list_elem_of_fmap; by exists c).
      rewrite Hf in Hin. revert Hin.
      destruct (psc_matched m k), (cid_matched m k); simpl;
        rewrite !elem_of_cons, !elem_of_nil; tauto.
    + by apply (proj1 (Forall_forall _ _) (join_cellkey_sound m k crit Hj)).
Qed.

(** C10: on every schema descriptor and every key the predicate has between
    four and six conditions, in the fixed order radio, mcc, mnc, lac, then
    psc when it is matched, then cid when it is matched; psc therefore
    precedes cid whenever both appear. *)
Theorem join_cellkey_order (m : model) (k : key) :
  schema_descriptor m →
  ∃ crit, join_cellkey m k = Ok crit ∧
    (4 ≤ length crit ≤ 6)%nat ∧
    crit_field <$> crit =
      (["radio"; "mcc"; "mnc"; "lac"]
       ++ (if psc_matched m k then ["psc"] else [])
       ++ (if cid_matched m k then ["cid"] else []))%list.
Proof.
  intros Hs. destruct (join_cellkey_fields m k Hs) as (crit & Hj & Hf).
  exists crit. split; [done |]. split; [| done].
  rewrite <- (length_fmap crit_field crit), Hf.
  destruct (psc_matched m k), (cid_matched m k); simpl; lia.
Qed.

Section EntityFacts.
Context {World : Type} (utcnow : World → Z * World).

(** *** Rules for running a constructor step by step *)

Lemma post_cret {A} (a : A) (w : World) (Q : A → World → Prop) :
  Q a w → post (cret a) w Q.
Proof. done. Qed.

Lemma post_cbind {A B} (c : Clocked A) (f : A → Clocked B) (w : World)
    (Q : B → World → Prop) :
  post c w (λ a w', post (f a) w' Q) → post (cbind c f) w Q.
Proof. unfold post, cbind. by destruct (c w). Qed.

Lemma post_default_utcnow (k : string) (kw : kwargs) (w : World)
    (Q : kwargs → World → Prop) :
  (∀ kw' w',
      kw' !! k = Some (default (VDatetime (utcnow w).1) (kw !! k)) →
      (∀ a, k ≠ a → kw' !! a = kw !! a) →
      w' = (if absent kw k then (utcnow w).2 else w) →
      Q kw' w') →
  post (default_utcnow utcnow k kw) w Q.
Proof.
  intros HQ. unfold post. apply HQ; unfold default_utcnow, absent.
  - destruct (kw !! k) eqn:Hk; [done |].
    destruct (utcnow w) as [t w']. simpl. by rewrite lookup_insert_eq.
  - intros a Hne. destruct (kw !! k); [done |].
    destruct (utcnow w) as [t w']. simpl. by rewrite lookup_insert_ne.
  - destruct (kw !! k); [done |]. by destruct (utcnow w).
Qed.

Lemma post_default_absent (k : string) (v : value) (kw : kwargs) (w : World)
    (Q : kwargs → World → Prop) :
  (∀ kw',
      kw' !! k = Some (default v (kw !! k)) →
      (∀ a, k ≠ a → kw' !! a = kw !! a) →
      Q kw' w) →
  post (default_absent k v kw) w Q.
Proof.
  intros HQ. unfold post. apply HQ; unfold default_absent, absent; simpl.
  - destruct (kw !! k) eqn:Hk; [done | by rewrite lookup_insert_eq].
  - intros a Hne. destruct (kw !! k); [done | by rewrite lookup_insert_ne].
Qed.

Lemma post_default_falsy (k : string) (v : value) (kw : kwargs) (w : World)
    (Q : kwargs → World → Prop) :
  (∀ kw',
      kw' !! k = (if absent_or_falsy kw k then Some v else kw !! k) →
      (∀ a, k ≠ a → kw' !! a = kw !! a) →
      Q kw' w) →
  post (default_falsy k v kw) w Q.
Proof.
  intros HQ. unfold post. apply HQ; unfold default_falsy; simpl.
  - destruct (absent_or_falsy kw k); [by rewrite lookup_insert_eq | done].
  - intros a Hne.
    destruct (absent_or_falsy kw k); [by rewrite lookup_insert_ne | done].
Qed.


(** Run every step of a constructor, naming what each one establishes. *)
Ltac run_init :=
  repeat first
    [ apply post_cbind, post_default_utcnow; intros ? ? ? ? ?
    | apply post_cbind, post_default_falsy; intros ? ? ?
    | apply post_cbind, post_default_absent; intros ? ? ?
    | apply post_cret ].

(** Trace a lookup in a later keyword table back to the arguments. *)
Ltac chase :=
  unfold absent_or_falsy, absent in *; subst;
  repeat match goal with
  | H : ∀ a, ?k ≠ a → ?m !! a = _ |- context [?m !! ?b] =>
      rewrite (H b) by (done || congruence)
  | H : ?m !! ?b = _ |- context [?m !! ?b] => rewrite H
  end.

Ltac init_spec :=
  run_init;
  repeat split;
    try (intros a Ha; rewrite !not_elem_of_cons in Ha; destruct_and!);
    by chase.

(** *** What each constructor hands to the base constructor *)

Lemma Cell_init_spec (kw : kwargs) (w : World) :
  post (Cell_init utcnow kw) w (λ e w',
    let w1 := if absent kw "created" then (utcnow w).2 else w in
    e !! "created" = Some (default (VDatetime (utcnow w).1) (kw !! "created")) ∧
    e !! "modified" = Some (default (VDatetime (utcnow w1).1) (kw !! "modified")) ∧
    e !! "lac" = (if absent_or_falsy kw "lac" then Some (VInt 0) else kw !! "lac") ∧
    e !! "cid" = (if absent_or_falsy kw "cid" then Some (VInt 0) else kw !! "cid") ∧
    e !! "range" = Some (default (VInt 0) (kw !! "range")) ∧
    e !! "new_measures" = Some (default (VInt 0) (kw !! "new_measures")) ∧
    e !! "total_measures" = Some (default (VInt 0) (kw !! "total_measures")) ∧
    (∀ a, a ∉ ["created"; "modified"; "lac"; "cid"; "range"; "new_measures";
               "total_measures"] → e !! a = kw !! a) ∧
    w' = (if absent kw "modified" then (utcnow w1).2 else w1)).
Proof. cbv zeta. unfold Cell_init. init_spec. Qed.

Lemma OCIDCell_init_spec (kw : kwargs) (w : World) :
  post (OCIDCell_init utcnow kw) w (λ e w',
    let w1 := if absent kw "created" then (utcnow w).2 else w in
    e !! "created" = Some (default (VDatetime (utcnow w).1) (kw !! "created")) ∧
    e !! "modified" = Some (default (VDatetime (utcnow w1).1) (kw !! "modified")) ∧
    e !! "lac" = (if absent_or_falsy kw "lac" then Some (VInt 0) else kw !! "lac") ∧
    e !! "cid" = (if absent_or_falsy kw "cid" then Some (VInt 0) else kw !! "cid") ∧
    e !! "range" = Some (default (VInt 0) (kw !! "range")) ∧
    e !! "total_measures" = Some (default (VInt 0) (kw !! "total_measures")) ∧
    e !! "changeable" = Some (default (VBool true) (kw !! "changeable")) ∧
    (∀ a, a ∉ ["created"; "modified"; "lac"; "cid"; "range"; "total_measures";
               "changeable"] → e !! a = kw !! a) ∧
    w' = (if absent kw "modified" then (utcnow w1).2 else w1)).
Proof. cbv zeta. unfold OCIDCell_init. init_spec. Qed.

Lemma CellArea_init_spec (kw : kwargs) (w : World) :
  post (CellArea_init utcnow kw) w (λ e w',
    let w1 := if absent kw "created" then (utcnow w).2 else w in
    e !! "created" = Some (default (VDatetime (utcnow w).1) (kw !! "created")) ∧
    e !! "modified" = Some (default (VDatetime (utcnow w1).1) (kw !! "modified")) ∧
    e !! "range" = Some (default (VInt 0) (kw !! "range")) ∧
    e !! "avg_cell_range" = Some (default (VInt 0) (kw !! "avg_cell_range")) ∧
    e !! "num_cells" = Some (default (VInt 0) (kw !! "num_cells")) ∧
    (∀ a, a ∉ ["created"; "modified"; "range"; "avg_cell_range"; "num_cells"] →
          e !! a = kw !! a) ∧
    w' = (if absent kw "modified" then (utcnow w1).2 else w1)).
Proof. cbv zeta. unfold CellArea_init. init_spec. Qed.

Lemma OCIDCellArea_init_spec (kw : kwargs) (w : World) :
  post (OCIDCellArea_init utcnow kw) w (λ e w',
    let w1 := if absent kw "created" then (utcnow w).2 else w in
    e !! "created" = Some (default (VDatetime (utcnow w).1) (kw !! "created")) ∧
    e !! "modified" = Some (default (VDatetime (utcnow w1).1) (kw !! "modified")) ∧
    e !! "range" = Some (default (VInt 0) (kw !! "range")) ∧
    e !! "avg_cell_range" = Some (default (VInt 0) (kw !! "avg_cell_range")) ∧
    e !! "num_cells" = Some (default (VInt 0) (kw !! "num_cells")) ∧
    (∀ a, a ∉ ["created"; "modified"; "range"; "avg_cell_range"; "num_cells"] →
          e !! a = kw !! a) ∧
    w' = (if absent kw "modified" then (utcnow w1).2 else w1)).
Proof. cbv zeta. unfold OCIDCellArea_init. init_spec. Qed.

Lemma CellBlacklist_init_spec (kw : kwargs) (w : World) :
  post (CellBlacklist_init utcnow kw) w (λ e w',
    e !! "time" = Some (default (VDatetime (utcnow w).1) (kw !! "time")) ∧
    e !! "count" = Some (default (VInt 1) (kw !! "count")) ∧
    (∀ a, a ∉ ["time"; "count"] → e !! a = kw !! a) ∧
    w' = (if absent kw "time" then (utcnow w).2 else w)).
Proof. unfold CellBlacklist_init. init_spec. Qed.

(** *** Defaults for lac and cid *)

(** C4, amended: the constructors of [Cell] and [OCIDCell] store 0 for lac
    and for cid whenever the field is absent from the arguments or its
    value is falsy, so an omitted field and an explicit falsy one give
    the same stored 0, and they keep a truthy value; the constructors of
    [CellArea], [OCIDCellArea] and [CellBlacklist] hand lac and cid on
    exactly as supplied, absent when absent. *)
Theorem lac_cid_defaults (kind : entity_kind) (kw : kwargs) (w : World)
    (a : string) :
  a = "lac" ∨ a = "cid" →
  let e := (construct utcnow kind kw w).1 in
  match kind with
  | KindCell | KindOCIDCell =>
      (absent_or_falsy kw a = true → e !! a = Some (VInt 0)) ∧
      (absent_or_falsy kw a = false → e !! a = kw !! a)
  | KindCellArea | KindOCIDCellArea | KindCellBlacklist =>
      e !! a = kw !! a
  end.
Proof.
  intros Ha e. subst e. destruct kind; simpl.
  - destruct (Cell_init_spec kw w) as (_ & _ & Hlac & Hcid & _).
    destruct Ha as [-> | ->]; [rewrite Hlac | rewrite Hcid];
      by split; intros ->.
  - destruct (OCIDCell_init_spec kw w) as (_ & _ & Hlac & Hcid & _).
    destruct Ha as [-> | ->]; [rewrite Hlac | rewrite Hcid];
      by split; intros ->.
  - destruct (CellArea_init_spec kw w) as (_ & _ & _ & _ & _ & Hrest & _).
    apply Hrest. rewrite !not_elem_of_cons.
    destruct Ha as [-> | ->]; repeat split; done || apply not_elem_of_nil.
  - destruct (OCIDCellArea_init_spec kw w) as (_ & _ & _ & _ & _ & Hrest & _).
    apply Hrest. rewrite !not_elem_of_cons.
    destruct Ha as [-> | ->]; repeat split; done || apply not_elem_of_nil.
  - destruct (CellBlacklist_init_spec kw w) as (_ & _ & Hrest & _).
    apply Hrest. rewrite !not_elem_of_cons.
    destruct Ha as [-> | ->]; repeat split; done || apply not_elem_of_nil.
Qed.

(** *** Construction without arguments *)

(** C6: [Cell()] stores 0 for lac, cid, range, new_measures and
    total_measures, stores in created the time the clock gives when it is
    first read during the call and in modified the time it gives when it
    is read next, and reads the clock no further. *)
Theorem Cell_init_no_arguments (w : World) :
  let r1 := utcnow w in
  let r2 := utcnow r1.2 in
  let e := (Cell_init utcnow ∅ w).1 in
  e !! "lac" = Some (VInt 0) ∧
  e !! "cid" = Some (VInt 0) ∧
  e !! "range" = Some (VInt 0) ∧
  e !! "new_measures" = Some (VInt 0) ∧
  e !! "total_measures" = Some (VInt 0) ∧
  e !! "created" = Some (VDatetime r1.1) ∧
  e !! "modified" = Some (VDatetime r2.1) ∧
  (Cell_init utcnow ∅ w).2 = r2.2.
Proof.
  destruct (Cell_init_spec ∅ w)
    as (Hcr & Hmo & Hlac & Hcid & Hra & Hnm & Htm & _ & Hw).
  cbv zeta. by rewrite Hcr, Hmo, Hlac, Hcid, Hra, Hnm, Htm, Hw.
Qed.

(** C8: [CellBlacklist()] stores 1 for count and, for time, the time the
    clock gives when it is read during the call; a count that is supplied
    is kept, and a time that is supplied is kept without reading the
    clock. *)
Theorem CellBlacklist_init_defaults (w : World) :
  (let e := (CellBlacklist_init utcnow ∅ w).1 in
   e !! "count" = Some (VInt 1) ∧
   e !! "time" = Some (VDatetime (utcnow w).1)) ∧
  (CellBlacklist_init utcnow ∅ w).2 = (utcnow w).2 ∧
  (∀ kw v, kw !! "count" = Some v →
     (CellBlacklist_init utcnow kw w).1 !! "count" = Some v) ∧
  (∀ kw v, kw !! "time" = Some v →
     (CellBlacklist_init utcnow kw w).1 !! "time" = Some v ∧
     (CellBlacklist_init utcnow kw w).2 = w).
Proof.
  split; [| split; [| split]].
  - cbv zeta. by destruct (CellBlacklist_init_spec ∅ w) as (-> & -> & _).
  - by destruct (CellBlacklist_init_spec ∅ w) as (_ & _ & _ & ->).
  - intros kw v Hv.
    destruct (CellBlacklist_init_spec kw w) as (_ & -> & _). by rewrite Hv.
  - intros kw v Hv.
    destruct (CellBlacklist_init_spec kw w) as (-> & _ & _ & ->).
    unfold absent. by rewrite Hv.
Qed.

(** *** Dependence on the clock *)

Ltac same_entity fin :=
  unfold post in *; destruct_and!;
  match goal with
  | F : ∀ a, a ∉ ?keys → _ |- ?e1 !! ?a = ?e2 !! ?a =>
      destruct (decide (a ∈ keys)) as [Hin | Hout];
      [ rewrite !elem_of_cons, elem_of_nil in Hin; destruct_or!;
        try done; subst a
      | ]
  end;
  repeat match goal with
  | H : ∀ a, a ∉ _ → ?m !! a = _ |- context [?m !! ?b] =>
      rewrite (H b) by done
  | H : ?m !! ?b = _ |- context [?m !! ?b] => rewrite H
  end;
  unfold absent; try done;
  repeat match goal with
  | |- context [match ?o with Some _ => _ | None => _ end] =>
      destruct o; simpl
  end;
  fin; done.

(** The entity is determined by the arguments and by what the clock
    answers to the first two readings. *)
Lemma construct_same_readings (kind : entity_kind) (kw : kwargs)
    (w w' : World) :
  (utcnow w).1 = (utcnow w').1 →
  (utcnow (utcnow w).2).1 = (utcnow (utcnow w').2).1 →
  (construct utcnow kind kw w).1 = (construct utcnow kind kw w').1.
Proof.
  intros R1 R2. apply map_eq. intros a. destruct kind; simpl.
  - pose proof (Cell_init_spec kw w); pose proof (Cell_init_spec kw w').
    same_entity ltac:(rewrite ?R1, ?R2).
  - pose proof (OCIDCell_init_spec kw w);
      pose proof (OCIDCell_init_spec kw w').
    same_entity ltac:(rewrite ?R1, ?R2).
  - pose proof (CellArea_init_spec kw w);
      pose proof (CellArea_init_spec kw w').
    same_entity ltac:(rewrite ?R1, ?R2).
  - pose proof (OCIDCellArea_init_spec kw w);
      pose proof (OCIDCellArea_init_spec kw w').
    same_entity ltac:(rewrite ?R1, ?R2).
  - pose proof (CellBlacklist_init_spec kw w);
      pose proof (CellBlacklist_init_spec kw w').
    same_entity ltac:(rewrite ?R1, ?R2).
Qed.

(** With its timestamps supplied a constructor does not read the clock. *)
Lemma construct_timestamps_supplied (kind : entity_kind) (kw : kwargs)
    (w w' : World) :
  timestamps_supplied kind kw →
  (construct utcnow kind kw w).1 = (construct utcnow kind kw w').1 ∧
  (construct utcnow kind kw w).2 = w.
Proof.
  intros Hsup. split.
  - apply map_eq. intros a. destruct kind; simpl in *.
    + destruct Hsup as [[c Hc] [mo Hmo]].
      pose proof (Cell_init_spec kw w); pose proof (Cell_init_spec kw w').
      same_entity idtac.
    + destruct Hsup as [[c Hc] [mo Hmo]].
      pose proof (OCIDCell_init_spec kw w);
        pose proof (OCIDCell_init_spec kw w').
      same_entity idtac.
    + destruct Hsup as [[c Hc] [mo Hmo]].
      pose proof (CellArea_init_spec kw w);
        pose proof (CellArea_init_spec kw w').
      same_entity idtac.
    + destruct Hsup as [[c Hc] [mo Hmo]].
      pose proof (OCIDCellArea_init_spec kw w);
        pose proof (OCIDCellArea_init_spec kw w').
      same_entity idtac.
    + destruct Hsup as [t Ht].
      pose proof (CellBlacklist_init_spec kw w);
        pose proof (CellBlacklist_init_spec kw w').
      same_entity idtac.
  - destruct kind; simpl in *.
    + destruct Hsup as [[c Hc] [mo Hmo]].
      destruct (Cell_init_spec kw w) as (_ & _ & _ & _ & _ & _ & _ & _ & ->).
      unfold absent. by rewrite Hc, Hmo.
    + destruct Hsup as [[c Hc] [mo Hmo]].
      destruct (OCIDCell_init_spec kw w)
        as (_ & _ & _ & _ & _ & _ & _ & _ & ->).
      unfold absent. by rewrite Hc, Hmo.
    + destruct Hsup as [[c Hc] [mo Hmo]].
      destruct (CellArea_init_spec kw w) as (_ & _ & _ & _ & _ & _ & ->).
      unfold absent. by rewrite Hc, Hmo.
    + destruct Hsup as [[c Hc] [mo Hmo]].
      destruct (OCIDCellArea_init_spec kw w) as (_ & _ & _ & _ & _ & _ & ->).
      unfold absent. by rewrite Hc, Hmo.
    + destruct Hsup as [t Ht].
      destruct (CellBlacklist_init_spec kw w) as (_ & _ & _ & ->).
      unfold absent. by rewrite Ht.
Qed.

End EntityFacts.

(** ** Concrete runs *)

Lemma join_cellkey_conditions_witness :
  ∃ crit,
    join_cellkey CellArea
      (KCellPsc (mkCellKeyPsc (VInt 1) (VInt 204) (VInt 10) (VInt 1234)
                              (VInt 0) (VInt 5))) = Ok crit ∧
    ¬ has_condition crit "psc" ∧ ¬ has_condition crit "cid".
Proof.
  destruct (join_cellkey_conditions CellArea
    (KCellPsc (mkCellKeyPsc (VInt 1) (VInt 204) (VInt 10) (VInt 1234)
                            (VInt 0) (VInt 5))))
    as (crit & Hj & _ & Hpsc & Hcid & _).
  - repeat split; by eexists.
  - exists crit. split; [exact Hj |]. split.
    + intros H. apply Hpsc in H. destruct H as [_ [c Hc]]. discriminate Hc.
    + intros H. apply Hcid in H. destruct H as [[c Hc] _]. discriminate Hc.
Defined.

Lemma join_cellkey_order_witness :
  ∃ crit,
    join_cellkey Cell
      (KCellPsc (mkCellKeyPsc (VInt 1) (VInt 204) (VInt 10) (VInt 1234)
                              (VInt 5678) (VInt 99))) = Ok crit ∧
    crit_field <$> crit = ["radio"; "mcc"; "mnc"; "lac"; "psc"; "cid"].
Proof.
  destruct (join_cellkey_order Cell
    (KCellPsc (mkCellKeyPsc (VInt 1) (VInt 204) (VInt 10) (VInt 1234)
                            (VInt 5678) (VInt 99))))
    as (crit & Hj & _ & Hf).
  - repeat split; by eexists.
  - exists crit. split; [exact Hj | exact Hf].
Defined.

Lemma lac_cid_defaults_witness :
  (Cell_init ticking_clock (<["lac" := VNone]> ∅) 0).1 !! "lac"
  = Some (VInt 0).
Proof.
  apply (proj1 (lac_cid_defaults ticking_clock KindCell
                  (<["lac" := VNone]> ∅) 0 "lac" (or_introl eq_refl))).
  reflexivity.
Defined.

(** C4, as the claim has it: every constructor stores 0 for a lac or cid
    that is absent or falsy.  [CellArea()] stores no lac at all. *)
Lemma CellArea_init_leaves_lac_unset :
  ¬ (∀ (kind : entity_kind) (kw : kwargs) (a : string),
       a = "lac" ∨ a = "cid" →
       absent_or_falsy kw a = true →
       (construct ticking_clock kind kw 0).1 !! a = Some (VInt 0)).
Proof.
  intros H.
  specialize (H KindCellArea ∅ "lac" (or_introl eq_refl) eq_refl).
  vm_compute in H. discriminate H.
Qed.

(** C7, as the claim has it: two invocations of a constructor on equal
    arguments yield equal entities.  [Cell()] at two different times
    yields two different values of created. *)
Lemma Cell_init_depends_on_clock :
  ¬ (∀ (kind : entity_kind) (kw : kwargs) (w w' : Z),
       (construct ticking_clock kind kw w).1
       = (construct ticking_clock kind kw w').1).
Proof.
  intros H. specialize (H KindCell ∅ 0 1).
  apply (f_equal (λ e : kwargs, e !! "created")) in H.
  vm_compute in H. discriminate H.
Qed.

(** ** Bounding box *)

(** C5: the bounding box of an [OCIDCell] is symmetric about its center.
    The latitude bounds are the center latitude minus and plus the range
    in meters divided by the constant 111,320 meters per degree; the
    longitude bounds are the center longitude minus and plus the range
    divided by that constant times the cosine of the center latitude in
    radians. *)
Theorem OCIDCell_bounding_box (self : Geocalc.OCIDCell_row) :
  let lat := Geocalc.lat self in
  let lon := Geocalc.lon self in
  let r := IZR (Geocalc.range self) in
  (Geocalc.min_lat self = lat - r / 111320 ∧
   Geocalc.max_lat self = lat + r / 111320 ∧
   Geocalc.min_lon self = lon - r / (111320 * cos (lat * PI / 180)) ∧
   Geocalc.max_lon self = lon + r / (111320 * cos (lat * PI / 180)) ∧
   Geocalc.max_lat self - lat = lat - Geocalc.min_lat self ∧
   Geocalc.max_lon self - lon = lon - Geocalc.min_lon self)%R.
Proof.
  intros lat lon r.
  unfold Geocalc.min_lat, Geocalc.max_lat, Geocalc.min_lon, Geocalc.max_lon.
  unfold Geocalc.add_meters_to_latitude, Geocalc.add_meters_to_longitude.
  unfold Geocalc.meters_to_lat_degrees, Geocalc.meters_to_lon_degrees.
  unfold Geocalc.meters_per_degree_latitude.
  rewrite opp_IZR. fold lat lon r. unfold Rdiv.
  repeat split; ring.
Qed.

(** * Further properties *)

(** ** Normalization with psc *)

(** A source that carries the six fields is normalized by [to_cellkey_psc]
    to the [CellKeyPsc] of exactly those six values, whatever its shape and
    whatever else it carries. *)
Theorem to_cellkey_psc_extracts (obj : source)
    (radio mcc mnc lac cid psc : value) :
  source_fields obj !! "radio" = Some radio →
  source_fields obj !! "mcc" = Some mcc →
  source_fields obj !! "mnc" = Some mnc →
  source_fields obj !! "lac" = Some lac →
  source_fields obj !! "cid" = Some cid →
  source_fields obj !! "psc" = Some psc →
  to_cellkey_psc obj = Ok (mkCellKeyPsc radio mcc mnc lac cid psc).
Proof.
  intros Hr Hm Hn Hl Hc Hp. rewrite to_cellkey_psc_unfold.
  rewrite (lookup_field_Some _ _ _ Hr), bind_Ok.
  rewrite (lookup_field_Some _ _ _ Hm), bind_Ok.
  rewrite (lookup_field_Some _ _ _ Hn), bind_Ok.
  rewrite (lookup_field_Some _ _ _ Hl), bind_Ok.
  rewrite (lookup_field_Some _ _ _ Hc), bind_Ok.
  by rewrite (lookup_field_Some _ _ _ Hp), bind_Ok.
Qed.

Lemma to_cellkey_psc_extracts_witness :
  to_cellkey_psc (Object (<["extra" := VStr "x"]> (CellKeyPsc_fields
    (mkCellKeyPsc (VInt 1) (VInt 204) (VInt 10) (VInt 1234) (VInt 5678) (VInt 99)))))
  = Ok (mkCellKeyPsc (VInt 1) (VInt 204) (VInt 10) (VInt 1234) (VInt 5678) (VInt 99)).
Proof.
  apply (to_cellkey_psc_extracts
    (Object (<["extra" := VStr "x"]> (CellKeyPsc_fields
      (mkCellKeyPsc (VInt 1) (VInt 204) (VInt 10) (VInt 1234) (VInt 5678)
                    (VInt 99)))))
    (VInt 1) (VInt 204) (VInt 10) (VInt 1234) (VInt 5678) (VInt 99));
    vm_compute; reflexivity.
Defined.

Lemma lookup_field_Ok_inv obj a v :
  lookup_field obj a = Ok v → source_fields obj !! a = Some v.
Proof.
  destruct obj as [d | o]; simpl; unfold getitem, getattr;
    by destruct (_ !! a); intros [= ->].
Qed.

(** Whatever [to_cellkey_psc] accepts, [to_cellkey] accepts too, and its
    key is the psc key without the psc. *)
Theorem to_cellkey_of_to_cellkey_psc (obj : source) (kp : CellKeyPsc) :
  to_cellkey_psc obj = Ok kp →
  to_cellkey obj = Ok (CellKey_of_psc kp).
Proof.
  rewrite to_cellkey_psc_unfold, to_cellkey_unfold.
  destruct (lookup_field obj "radio"); [| done].
  destruct (lookup_field obj "mcc"); [| done].
  destruct (lookup_field obj "mnc"); [| done].
  destruct (lookup_field obj "lac"); [| done].
  destruct (lookup_field obj "cid"); [| done].
  destruct (lookup_field obj "psc"); [| done].
  by intros [= <-].
Qed.

Lemma to_cellkey_of_to_cellkey_psc_witness :
  to_cellkey (Dict (CellKeyPsc_fields
    (mkCellKeyPsc (VInt 1) (VInt 204) (VInt 10) (VInt 1234) (VInt 5678) (VInt 99))))
  = Ok (mkCellKey (VInt 1) (VInt 204) (VInt 10) (VInt 1234) (VInt 5678)).
Proof.
  apply (to_cellkey_of_to_cellkey_psc
    (Dict (CellKeyPsc_fields
      (mkCellKeyPsc (VInt 1) (VInt 204) (VInt 10) (VInt 1234) (VInt 5678)
                    (VInt 99))))
    (mkCellKeyPsc (VInt 1) (VInt 204) (VInt 10) (VInt 1234) (VInt 5678)
                  (VInt 99))).
  reflexivity.
Defined.

(** Where [to_cellkey] succeeds on a plain dict or a field-bearing object,
    [to_cellkey_psc] depends on psc alone: it returns the same five fields
    with the source's psc, or, when psc is absent, fails on psc with the
    exception of the source's shape. *)
Theorem to_cellkey_psc_of_to_cellkey (obj : source) (k : CellKey) :
  to_cellkey obj = Ok k →
  to_cellkey_psc obj =
    match source_fields obj !! "psc" with
    | Some psc =>
        Ok (mkCellKeyPsc (ck_radio k) (ck_mcc k) (ck_mnc k) (ck_lac k)
                         (ck_cid k) psc)
    | None => Raise (lookup_error obj "psc")
    end.
Proof.
  rewrite to_cellkey_psc_unfold, to_cellkey_unfold.
  destruct (lookup_field obj "radio"); [| done].
  destruct (lookup_field obj "mcc"); [| done].
  destruct (lookup_field obj "mnc"); [| done].
  destruct (lookup_field obj "lac"); [| done].
  destruct (lookup_field obj "cid"); [| done].
  intros [= <-]. rewrite !bind_Ok.
  destruct (source_fields obj !! "psc") as [psc |] eqn:Hp.
  - by rewrite (lookup_field_Some _ _ _ Hp).
  - by rewrite (lookup_field_None _ _ Hp).
Qed.

Lemma to_cellkey_psc_of_to_cellkey_witness :
  to_cellkey_psc (CellKey_as_source
    (mkCellKey (VInt 1) (VInt 204) (VInt 10) (VInt 1234) (VInt 5678)))
  = Raise (AttributeError "psc").
Proof.
  apply (to_cellkey_psc_of_to_cellkey
    (CellKey_as_source
      (mkCellKey (VInt 1) (VInt 204) (VInt 10) (VInt 1234) (VInt 5678)))
    (mkCellKey (VInt 1) (VInt 204) (VInt 10) (VInt 1234) (VInt 5678))).
  reflexivity.
Defined.

(** Keys of one class read as sources of another: a [CellKeyPsc] gives
    its [CellKey], a [CellAreaKey] never normalizes because it has no cid,
    and a [CellKey] never gives a [CellKeyPsc] because it has no psc. *)
Theorem keys_as_sources (k : CellKey) (kp : CellKeyPsc) (ak : CellAreaKey) :
  to_cellkey (CellKeyPsc_as_source kp) = Ok (CellKey_of_psc kp) ∧
  to_cellkey_psc (CellKeyPsc_as_source kp) = Ok kp ∧
  to_cellkey_psc (CellKey_as_source k) = Raise (AttributeError "psc") ∧
  to_cellkey (CellAreaKey_as_source ak) = Raise (AttributeError "cid") ∧
  to_cellkey_psc (CellAreaKey_as_source ak) = Raise (AttributeError "cid").
Proof. by destruct k, kp, ak. Qed.

(** ** The matcher on models that are not schema descriptors *)

Lemma first_undeclared_None (m : model) (names : list string) :
  first_undeclared m names = None ↔ ∀ a, a ∈ names → declares m a.
Proof.
  unfold declares. induction names as [| b rest IH]; simpl.
  - split; [intros _ a Ha; by apply elem_of_nil in Ha | done].
  - destruct (m !! b) as [c |] eqn:Hb.
    + rewrite IH. split.
      * intros H a [-> | Ha]%elem_of_cons; [by rewrite Hb | by apply H].
      * intros H a Ha. apply H. by right.
    + split; [done | intros H].
      destruct (H b) as [c Hc]; [by left | congruence].
Qed.

Lemma schema_descriptor_first_undeclared (m : model) :
  schema_descriptor m ↔
  first_undeclared m ["radio"; "mcc"; "mnc"; "lac"] = None.
Proof.
  rewrite first_undeclared_None. unfold schema_descriptor. split.
  - intros (Hr & Hm & Hn & Hl) a Ha.
    rewrite !elem_of_cons, elem_of_nil in Ha.
    destruct Ha as [-> | [-> | [-> | [-> | []]]]]; done.
  - intros H. repeat split; apply H; rewrite !elem_of_cons; tauto.
Qed.

(** What the matcher does on any model, by the first area column that the
    model does not declare. *)
Lemma join_cellkey_outcome (m : model) (k : key) :
  match first_undeclared m ["radio"; "mcc"; "mnc"; "lac"] with
  | Some a => join_cellkey m k = Raise (AttributeError a)
  | None => ∃ crit, join_cellkey m k = Ok crit
  end.
Proof.
  destruct (key_fields_area k) as (Kr & Km & Kn & Kl). simpl.
  destruct (m !! "radio") as [cr |] eqn:Hr.
  2: { unfold join_cellkey, eq_on, model_getattr. by rewrite Hr. }
  destruct (m !! "mcc") as [cm |] eqn:Hm.
  2: { unfold join_cellkey. rewrite (eq_on_Ok m k "radio" _ _ Hr Kr), bind_Ok.
       unfold eq_on, model_getattr. by rewrite Hm. }
  destruct (m !! "mnc") as [cn |] eqn:Hn.
  2: { unfold join_cellkey. rewrite (eq_on_Ok m k "radio" _ _ Hr Kr), bind_Ok.
       rewrite (eq_on_Ok m k "mcc" _ _ Hm Km), bind_Ok.
       unfold eq_on, model_getattr. by rewrite Hn. }
  destruct (m !! "lac") as [cl |] eqn:Hl.
  2: { unfold join_cellkey. rewrite (eq_on_Ok m k "radio" _ _ Hr Kr), bind_Ok.
       rewrite (eq_on_Ok m k "mcc" _ _ Hm Km), bind_Ok.
       rewrite (eq_on_Ok m k "mnc" _ _ Hn Kn), bind_Ok.
       unfold eq_on, model_getattr. by rewrite Hl. }
  eexists. by apply (join_cellkey_Ok m k cr cm cn cl).
Qed.

(** The matcher fails exactly on the models that lack one of radio, mcc,
    mnc, lac, whatever the key; the failure is an [AttributeError] naming
    the first of these four that the model lacks, and a missing psc or cid
    never makes it fail. *)
Theorem join_cellkey_raises_iff (m : model) (k : key) :
  (raises (join_cellkey m k) ↔ ¬ schema_descriptor m) ∧
  (∀ e, join_cellkey m k = Raise e →
     ∃ a, first_undeclared m ["radio"; "mcc"; "mnc"; "lac"] = Some a ∧
          e = AttributeError a).
Proof.
  pose proof (join_cellkey_outcome m k) as H.
  rewrite schema_descriptor_first_undeclared.
  destruct (first_undeclared m ["radio"; "mcc"; "mnc"; "lac"]) as [a |].
  - split.
    + split; [done | intros _; by eexists].
    + intros e He. exists a. split; [done | congruence].
  - destruct H as [crit Hc]. split.
    + split; [intros [e He]; congruence | done].
    + intros e He. congruence.
Qed.

(** ** Keys against narrower models *)

Lemma eq_on_key_fields (m : model) (k k' : key) (a : string) :
  key_fields k !! a = key_fields k' !! a → eq_on m k a = eq_on m k' a.
Proof. unfold eq_on, key_getattr, getattr. by intros ->. Qed.

(** Against a model without a psc column a [CellKeyPsc] matches exactly as
    the [CellKey] of its first five fields: its psc is dropped. *)
Theorem join_cellkey_drops_psc (m : model) (kp : CellKeyPsc) :
  m !! "psc" = None →
  join_cellkey m (KCellPsc kp) = join_cellkey m (KCell (CellKey_of_psc kp)).
Proof.
  intros Hp. unfold join_cellkey, model_getattr_default, key_hasattr.
  rewrite Hp. simpl is_not_None.
  rewrite (eq_on_key_fields m (KCellPsc kp) (KCell (CellKey_of_psc kp)) "radio")
    by by destruct kp.
  rewrite (eq_on_key_fields m (KCellPsc kp) (KCell (CellKey_of_psc kp)) "mcc")
    by by destruct kp.
  rewrite (eq_on_key_fields m (KCellPsc kp) (KCell (CellKey_of_psc kp)) "mnc")
    by by destruct kp.
  rewrite (eq_on_key_fields m (KCellPsc kp) (KCell (CellKey_of_psc kp)) "lac")
    by by destruct kp.
  rewrite (eq_on_key_fields m (KCellPsc kp) (KCell (CellKey_of_psc kp)) "cid")
    by by destruct kp.
  rewrite !key_fields_cid. by destruct kp.
Qed.

Lemma join_cellkey_drops_psc_witness :
  join_cellkey CellBlacklist
    (KCellPsc (mkCellKeyPsc (VInt 1) (VInt 204) (VInt 10) (VInt 1234)
                            (VInt 5678) (VInt 99)))
  = join_cellkey CellBlacklist
      (KCell (mkCellKey (VInt 1) (VInt 204) (VInt 10) (VInt 1234) (VInt 5678))).
Proof.
  apply (join_cellkey_drops_psc CellBlacklist
    (mkCellKeyPsc (VInt 1) (VInt 204) (VInt 10) (VInt 1234) (VInt 5678)
                  (VInt 99))).
  reflexivity.
Defined.

(** Against a model without psc and cid columns every key matches exactly
    as the [CellAreaKey] of its area fields. *)
Theorem join_cellkey_area_only (m : model) (k : key) :
  m !! "psc" = None → m !! "cid" = None →
  join_cellkey m k = join_cellkey m (KCellArea (CellAreaKey_of k)).
Proof.
  intros Hp Hc. unfold join_cellkey, model_getattr_default, model_hasattr.
  rewrite Hp, Hc. simpl is_not_None.
  rewrite (eq_on_key_fields m k (KCellArea (CellAreaKey_of k)) "radio")
    by by destruct k as [[] | [] | []].
  rewrite (eq_on_key_fields m k (KCellArea (CellAreaKey_of k)) "mcc")
    by by destruct k as [[] | [] | []].
  rewrite (eq_on_key_fields m k (KCellArea (CellAreaKey_of k)) "mnc")
    by by destruct k as [[] | [] | []].
  rewrite (eq_on_key_fields m k (KCellArea (CellAreaKey_of k)) "lac")
    by by destruct k as [[] | [] | []].
  rewrite !andb_false_r.
  rewrite bool_decide_eq_false_2 by by intros [c Hc'].
  done.
Qed.

Lemma join_cellkey_area_only_witness :
  join_cellkey CellArea
    (KCellPsc (mkCellKeyPsc (VInt 1) (VInt 204) (VInt 10) (VInt 1234)
                            (VInt 5678) (VInt 99)))
  = join_cellkey CellArea
      (KCellArea (mkCellAreaKey (VInt 1) (VInt 204) (VInt 10) (VInt 1234))).
Proof.
  apply (join_cellkey_area_only CellArea
    (KCellPsc (mkCellKeyPsc (VInt 1) (VInt 204) (VInt 10) (VInt 1234)
                            (VInt 5678) (VInt 99))));
    reflexivity.
Defined.

(** ** Keys and primary keys *)

(** When the fields of the key are the primary key columns of a mapped
    class, every one of them is a declared column and the matcher's
    predicate constrains exactly the primary key, column by column and in
    the order of the constraint. *)
Theorem join_cellkey_primary_key (kind : entity_kind) (k : key) :
  key_names k = primary_key kind →
  (∀ a, a ∈ primary_key kind → declares (model_of kind) a) ∧
  ∃ crit, join_cellkey (model_of kind) k = Ok crit ∧
          crit_field <$> crit = primary_key kind ∧
          Some <$> (crit_value <$> crit)
            = (λ a, key_fields k !! a) <$> primary_key kind.
Proof.
  intros Hk. split.
  - intros a Ha. destruct kind; simpl in Ha;
      rewrite !elem_of_cons, elem_of_nil in Ha; destruct_or!;
      try done; subst a; by eexists.
  - destruct kind, k as [[] | [] | []]; simpl in Hk; try discriminate Hk;
      eexists; (split; [reflexivity |]); by split.
Qed.

Lemma join_cellkey_primary_key_witness :
  ∃ crit,
    join_cellkey CellBlacklist
      (KCell (mkCellKey (VInt 1) (VInt 204) (VInt 10) (VInt 1234) (VInt 5678)))
    = Ok crit ∧
    crit_field <$> crit = ["radio"; "mcc"; "mnc"; "lac"; "cid"].
Proof.
  destruct (join_cellkey_primary_key KindCellBlacklist
    (KCell (mkCellKey (VInt 1) (VInt 204) (VInt 10) (VInt 1234) (VInt 5678)))
    eq_refl) as (_ & crit & Hj & Hf & _).
  exists crit. split; [exact Hj | exact Hf].
Defined.

(** [CELL_MODEL_KEYS] is keyed by table name: a name is in the table
    exactly when it is the [__tablename__] of the class stored under it,
    every mapped class but [CellBlacklist] is found under its table name,
    and [CellBlacklist] is not in the table. *)
Theorem CELL_MODEL_KEYS_tablename (name : string) (kind : entity_kind) :
  (CELL_MODEL_KEYS !! name = Some kind ↔
     tablename kind = name ∧ kind ≠ KindCellBlacklist) ∧
  CELL_MODEL_KEYS !! tablename KindCellBlacklist = None.
Proof.
  split; [| reflexivity]. split.
  - unfold CELL_MODEL_KEYS. intros H.
    repeat match type of H with
    | <[?a := _]> _ !! name = _ =>
        destruct (decide (a = name)) as [<- | ?];
        [ rewrite lookup_insert_eq in H; injection H as <-; by split
        | rewrite lookup_insert_ne in H by done ]
    end.
    by rewrite lookup_empty in H.
  - intros [<- Hk]. by destruct kind.
Qed.

(** ** Normalizing, then matching *)

Lemma to_cellkey_Ok_fields (obj : source) (k : CellKey) :
  to_cellkey obj = Ok k →
  ∀ a, a ∈ cellkey_required →
       source_fields obj !! a = key_fields (KCell k) !! a.
Proof.
  rewrite to_cellkey_unfold.
  destruct (lookup_field obj "radio") as [vr |] eqn:Hr; [| done].
  destruct (lookup_field obj "mcc") as [vm |] eqn:Hm; [| done].
  destruct (lookup_field obj "mnc") as [vn |] eqn:Hn; [| done].
  destruct (lookup_field obj "lac") as [vl |] eqn:Hl; [| done].
  destruct (lookup_field obj "cid") as [vc |] eqn:Hc; [| done].
  intros [= <-] a Ha.
  apply lookup_field_Ok_inv in Hr, Hm, Hn, Hl, Hc.
  unfold cellkey_required in Ha. rewrite !elem_of_cons, elem_of_nil in Ha.
  destruct_or!; try done; by subst a.
Qed.

(** The usual use, [join_cellkey(model, to_cellkey(obj))]: on a schema
    descriptor every condition of the predicate compares a column with the
    value the source itself has under that column's name, and psc is not
    among the conditions. *)
Theorem join_cellkey_to_cellkey (m : model) (obj : source) (k : CellKey) :
  schema_descriptor m →
  to_cellkey obj = Ok k →
  ∃ crit, join_cellkey m (KCell k) = Ok crit ∧
    ¬ has_condition crit "psc" ∧
    ∀ c, c ∈ crit → source_fields obj !! crit_field c = Some (crit_value c).
Proof.
  intros Hs Hk.
  destruct (join_cellkey_fields m (KCell k) Hs) as (crit & Hj & Hf).
  pose proof (join_cellkey_sound m (KCell k) crit Hj) as Hsound.
  rewrite Forall_forall in Hsound.
  assert (Hnames : ∀ c, c ∈ crit → crit_field c ∈ cellkey_required).
  { intros c Hc.
    assert (Hin : crit_field c ∈ crit_field <$> crit)
      by (apply list_elem_of_fmap; by exists c).
    rewrite Hf in Hin. revert Hin. unfold psc_matched, cellkey_required.
    simpl. destruct (cid_matched m (KCell k)); simpl;
      rewrite !elem_of_cons, !elem_of_nil; tauto. }
  exists crit. split; [done |]. split.
  - intros (c & Hc & Hfield). specialize (Hnames c Hc).
    rewrite Hfield in Hnames. unfold cellkey_required in Hnames.
    rewrite !elem_of_cons, elem_of_nil in Hnames. by destruct_or!.
  - intros c Hc.
    rewrite (to_cellkey_Ok_fields obj k Hk _ (Hnames c Hc)).
    by apply Hsound.
Qed.

Lemma join_cellkey_to_cellkey_witness :
  ∃ crit,
    join_cellkey Cell
      (KCell (mkCellKey (VInt 1) (VInt 204) (VInt 10) (VInt 1234) (VInt 5678)))
    = Ok crit ∧ ¬ has_condition crit "psc".
Proof.
  destruct (join_cellkey_to_cellkey Cell
    (Dict (CellKeyPsc_fields
      (mkCellKeyPsc (VInt 1) (VInt 204) (VInt 10) (VInt 1234) (VInt 5678)
                    (VInt 99))))
    (mkCellKey (VInt 1) (VInt 204) (VInt 10) (VInt 1234) (VInt 5678)))
    as (crit & Hj & Hp & _).
  - repeat split; by eexists.
  - reflexivity.
  - exists crit. split; [exact Hj | exact Hp].
Defined.

(** ** What a constructor changes and what it keeps *)

Section ConstructFacts.
Context {World : Type} (utcnow : World → Z * World).

(** Outside its default names a constructor hands every entry on
    unchanged, and adds none. *)
Lemma construct_other_key (kind : entity_kind) (kw : kwargs) (w : World)
    (a : string) :
  a ∉ default_keys kind →
  (construct utcnow kind kw w).1 !! a = kw !! a.
Proof.
  intros Ha. destruct kind; simpl in *.
  - destruct (Cell_init_spec utcnow kw w) as (_&_&_&_&_&_&_& Hrest &_).
    by apply Hrest.
  - destruct (OCIDCell_init_spec utcnow kw w) as (_&_&_&_&_&_&_& Hrest &_).
    by apply Hrest.
  - destruct (CellArea_init_spec utcnow kw w) as (_&_&_&_&_& Hrest &_).
    by apply Hrest.
  - destruct (OCIDCellArea_init_spec utcnow kw w) as (_&_&_&_&_& Hrest &_).
    by apply Hrest.
  - destruct (CellBlacklist_init_spec utcnow kw w) as (_&_& Hrest &_).
    by apply Hrest.
Qed.

(** Under a default name the entry is the lac/cid rule for lac and cid, and
    the supplied value or else some default for every other name. *)
Lemma construct_default_key (kind : entity_kind) (kw : kwargs) (w : World)
    (a : string) :
  a ∈ default_keys kind →
  (a ∈ ["lac"; "cid"] ∧
   (construct utcnow kind kw w).1 !! a
     = (if absent_or_falsy kw a then Some (VInt 0) else kw !! a)) ∨
  ((a ∉ ["lac"; "cid"]) ∧
   (∃ d, (construct utcnow kind kw w).1 !! a = Some (default d (kw !! a)))).
Proof.
  intros Ha. destruct kind; simpl in *;
    rewrite !elem_of_cons, elem_of_nil in Ha.
  - destruct (Cell_init_spec utcnow kw w)
      as (Hcr & Hmo & Hlac & Hcid & Hra & Hnm & Htm & _).
    destruct_or!; try done; subst a;
      first [ left; split; [rewrite !elem_of_cons; tauto | done]
            | right; split;
              [ rewrite !not_elem_of_cons; repeat split;
                done || apply not_elem_of_nil
              | by eexists ] ].
  - destruct (OCIDCell_init_spec utcnow kw w)
      as (Hcr & Hmo & Hlac & Hcid & Hra & Htm & Hch & _).
    destruct_or!; try done; subst a;
      first [ left; split; [rewrite !elem_of_cons; tauto | done]
            | right; split;
              [ rewrite !not_elem_of_cons; repeat split;
                done || apply not_elem_of_nil
              | by eexists ] ].
  - destruct (CellArea_init_spec utcnow kw w)
      as (Hcr & Hmo & Hra & Hav & Hnc & _).
    destruct_or!; try done; subst a;
      (right; split;
       [ rewrite !not_elem_of_cons; repeat split; done || apply not_elem_of_nil
       | by eexists ]).
  - destruct (OCIDCellArea_init_spec utcnow kw w)
      as (Hcr & Hmo & Hra & Hav & Hnc & _).
    destruct_or!; try done; subst a;
      (right; split;
       [ rewrite !not_elem_of_cons; repeat split; done || apply not_elem_of_nil
       | by eexists ]).
  - destruct (CellBlacklist_init_spec utcnow kw w) as (Hti & Hco & _).
    destruct_or!; try done; subst a;
      (right; split;
       [ rewrite !not_elem_of_cons; repeat split; done || apply not_elem_of_nil
       | by eexists ]).
Qed.

Lemma absent_or_falsy_false (kw : kwargs) (a : string) :
  absent_or_falsy kw a = false → ∃ v, kw !! a = Some v ∧ truthy v = true.
Proof.
  unfold absent_or_falsy. destruct (kw !! a) as [v |]; [| done].
  intros H. exists v. split; [done |]. by destruct (truthy v).
Qed.

(** A constructor never replaces a supplied value, with one exception: a
    falsy lac or cid handed to a constructor that defaults them.  So a
    supplied [None], [0] or [False] for range, the counters, changeable,
    count or a timestamp is kept as it is. *)
Theorem construct_keeps_supplied (kind : entity_kind) (kw : kwargs)
    (w : World) (a : string) (v : value) :
  kw !! a = Some v →
  (a ∈ default_keys kind → a ∈ ["lac"; "cid"] → truthy v = true) →
  (construct utcnow kind kw w).1 !! a = Some v.
Proof.
  intros Hv Htruthy.
  destruct (decide (a ∈ default_keys kind)) as [Hin | Hout].
  - destruct (construct_default_key kind kw w a Hin)
      as [[Hlc ->] | [_ [d ->]]].
    + unfold absent_or_falsy. rewrite Hv, (Htruthy Hin Hlc). done.
    + by rewrite Hv.
  - by rewrite construct_other_key.
Qed.

(** The names of the entity are the supplied names and the constructor's
    default names: every default name is filled, and no other name is
    added or removed. *)
Theorem construct_names (kind : entity_kind) (kw : kwargs) (w : World)
    (a : string) :
  is_Some ((construct utcnow kind kw w).1 !! a) ↔
  is_Some (kw !! a) ∨ a ∈ default_keys kind.
Proof.
  destruct (decide (a ∈ default_keys kind)) as [Hin | Hout].
  - split; [by right | intros _].
    destruct (construct_default_key kind kw w a Hin)
      as [[_ ->] | [_ [d ->]]]; [| by eexists].
    destruct (absent_or_falsy kw a) eqn:Hf; [by eexists |].
    destruct (absent_or_falsy_false kw a Hf) as (v & -> & _). by eexists.
  - rewrite construct_other_key by done. tauto.
Qed.

(** Where lac and cid are defaulted, the stored value is never absent and
    never a falsy value other than 0: it is 0 or it is truthy. *)
Theorem construct_lac_cid_zero_or_truthy (kind : entity_kind) (kw : kwargs)
    (w : World) (a : string) :
  a ∈ default_keys kind → a ∈ ["lac"; "cid"] →
  ∃ v, (construct utcnow kind kw w).1 !! a = Some v ∧
       (v = VInt 0 ∨ truthy v = true).
Proof.
  intros Hin Hlc.
  destruct (construct_default_key kind kw w a Hin) as [[_ ->] | [Hn _]];
    [| done].
  destruct (absent_or_falsy kw a) eqn:Hf.
  - exists (VInt 0). by split; [| left].
  - destruct (absent_or_falsy_false kw a Hf) as (v & -> & Ht).
    exists v. by split; [| right].
Qed.

(** Defaulting is stable: constructing again from the keyword table a
    constructor produced changes nothing and does not read the clock. *)
Theorem construct_idempotent (kind : entity_kind) (kw : kwargs) (w w' : World) :
  construct utcnow kind (construct utcnow kind kw w).1 w'
  = ((construct utcnow kind kw w).1, w').
Proof.
  set (e := (construct utcnow kind kw w).1).
  assert (Hsup : timestamps_supplied kind e).
  { assert (Hsome : ∀ a, a ∈ default_keys kind → is_Some (e !! a)).
    { intros a Ha. subst e.
      destruct (construct_default_key kind kw w a Ha)
        as [[_ ->] | [_ [d ->]]]; [| by eexists].
      destruct (absent_or_falsy kw a) eqn:Hf; [by eexists |].
      destruct (absent_or_falsy_false kw a Hf) as (v & -> & _). by eexists. }
    destruct kind; simpl; repeat split; apply Hsome; simpl;
      rewrite !elem_of_cons; tauto. }
  destruct (construct_timestamps_supplied utcnow kind e w' w' Hsup) as [_ Hw].
  destruct (construct utcnow kind e w') as [e' w''] eqn:Hrun.
  simpl in Hw. subst w''. f_equal.
  assert (He' : e' = (construct utcnow kind e w').1) by by rewrite Hrun.
  rewrite He'. clear Hrun He' e'. apply map_eq. intros a.
  destruct (decide (a ∈ default_keys kind)) as [Hin | Hout].
  - destruct (construct_default_key kind e w' a Hin)
      as [[Hlc ->] | [Hn [d' ->]]];
      subst e;
      destruct (construct_default_key kind kw w a Hin)
        as [[Hlc' He] | [Hn' [d He]]]; try done.
    + rewrite He. unfold absent_or_falsy at 1. rewrite He.
      destruct (absent_or_falsy kw a) eqn:Hf; [done |].
      destruct (absent_or_falsy_false kw a Hf) as (v & -> & ->). done.
    + by rewrite He.
  - by rewrite construct_other_key.
Qed.

(** With no timestamps supplied, created is read from the clock before
    modified: on a clock that never goes back, created is not later than
    modified. *)
Theorem construct_created_before_modified (kind : entity_kind)
    (kw : kwargs) (w : World) :
  monotone_clock utcnow →
  kind ≠ KindCellBlacklist →
  kw !! "created" = None → kw !! "modified" = None →
  ∃ c m, (construct utcnow kind kw w).1 !! "created" = Some (VDatetime c) ∧
         (construct utcnow kind kw w).1 !! "modified" = Some (VDatetime m) ∧
         (c ≤ m)%Z.
Proof.
  intros Hmono Hkind Hc Hm.
  exists (utcnow w).1, (utcnow (utcnow w).2).1.
  destruct kind; simpl; try done.
  - destruct (Cell_init_spec utcnow kw w) as (-> & -> & _).
    unfold absent. rewrite Hc, Hm. by repeat split.
  - destruct (OCIDCell_init_spec utcnow kw w) as (-> & -> & _).
    unfold absent. rewrite Hc, Hm. by repeat split.
  - destruct (CellArea_init_spec utcnow kw w) as (-> & -> & _).
    unfold absent. rewrite Hc, Hm. by repeat split.
  - destruct (OCIDCellArea_init_spec utcnow kw w) as (-> & -> & _).
    unfold absent. rewrite Hc, Hm. by repeat split.
Qed.

End ConstructFacts.

Lemma construct_keeps_supplied_witness :
  (OCIDCell_init ticking_clock (<["changeable" := VBool false]> ∅) 0).1
    !! "changeable" = Some (VBool false).
Proof.
  apply (construct_keeps_supplied ticking_clock KindOCIDCell
           (<["changeable" := VBool false]> ∅) 0 "changeable" (VBool false)).
  - reflexivity.
  - intros _ H. rewrite !elem_of_cons, elem_of_nil in H.
    by destruct H as [H | [H | []]].
Defined.

Lemma construct_lac_cid_zero_or_truthy_witness :
  ∃ v, (Cell_init ticking_clock (<["lac" := VStr ""]> ∅) 0).1 !! "lac" = Some v ∧
       (v = VInt 0 ∨ truthy v = true).
Proof.
  apply (construct_lac_cid_zero_or_truthy ticking_clock KindCell
           (<["lac" := VStr ""]> ∅) 0 "lac");
    simpl; rewrite !elem_of_cons; tauto.
Defined.

Lemma construct_created_before_modified_witness :
  ∃ c m, (CellArea_init ticking_clock ∅ 10).1 !! "created" = Some (VDatetime c) ∧
         (CellArea_init ticking_clock ∅ 10).1 !! "modified" = Some (VDatetime m) ∧
         (c ≤ m)%Z.
Proof.
  apply (construct_created_before_modified ticking_clock KindCellArea ∅ 10).
  - intros w. unfold ticking_clock. simpl. lia.
  - discriminate.
  - reflexivity.
  - reflexivity.
Defined.

(** ** The sign of the range *)

(** The lower bounds are the upper bounds of the same cell with its range
    negated, and the other way round; with range 0 the lower and upper
    bounds coincide. *)
Theorem OCIDCell_bounds_negated_range (self : Geocalc.OCIDCell_row) :
  let flipped := Geocalc.mkRow (Geocalc.lat self) (Geocalc.lon self)
                               (- Geocalc.range self) in
  Geocalc.min_lat flipped = Geocalc.max_lat self ∧
  Geocalc.max_lat flipped = Geocalc.min_lat self ∧
  Geocalc.min_lon flipped = Geocalc.max_lon self ∧
  Geocalc.max_lon flipped = Geocalc.min_lon self ∧
  (Geocalc.range self = 0 →
   Geocalc.min_lat self = Geocalc.max_lat self ∧
   Geocalc.min_lon self = Geocalc.max_lon self).
Proof.
  unfold Geocalc.min_lat, Geocalc.max_lat, Geocalc.min_lon, Geocalc.max_lon.
  simpl. rewrite Z.opp_involutive. repeat split; by rewrite H.
Qed.

(** ** What the outputs depend on *)

(** The fields and values of the predicate, or the exception, in closed
    form: they are fixed by which identity columns the model declares and
    by the fields of the key. *)
Lemma conditions_join_cellkey (m : model) (k : key) :
  conditions (join_cellkey m k) =
    match first_undeclared m ["radio"; "mcc"; "mnc"; "lac"] with
    | Some a => Raise (AttributeError a)
    | None =>
        Ok ([("radio", key_radio k); ("mcc", key_mcc k);
             ("mnc", key_mnc k); ("lac", key_lac k)]
            ++ match key_psc k with
               | Some v => if model_hasattr m "psc" then [("psc", v)] else []
               | None => []
               end
            ++ match key_cid k with
               | Some v => if model_hasattr m "cid" then [("cid", v)] else []
               | None => []
               end)%list
    end.
Proof.
  pose proof (join_cellkey_outcome m k) as Hout. revert Hout. simpl.
  destruct (m !! "radio") as [cr |] eqn:Hr; [| by intros ->].
  destruct (m !! "mcc") as [cm |] eqn:Hm; [| by intros ->].
  destruct (m !! "mnc") as [cn |] eqn:Hn; [| by intros ->].
  destruct (m !! "lac") as [cl |] eqn:Hl; [| by intros ->].
  intros _. rewrite (join_cellkey_Ok m k cr cm cn cl) by done.
  unfold model_hasattr.
  by destruct (key_psc k), (m !! "psc"), (m !! "cid"), (key_cid k).
Qed.

Lemma first_undeclared_alike (m m' : model) (names : list string) :
  (∀ a, a ∈ names → (declares m a ↔ declares m' a)) →
  first_undeclared m names = first_undeclared m' names.
Proof.
  unfold declares. induction names as [| b rest IH]; intros H; [done |].
  simpl.
  assert (Hb : is_Some (m !! b) ↔ is_Some (m' !! b)) by (apply H; by left).
  assert (Hrest : first_undeclared m rest = first_undeclared m' rest).
  { apply IH. intros a Ha. apply H. by right. }
  destruct (m !! b) as [c |], (m' !! b) as [c' |]; try done.
  - destruct (proj1 Hb) as [x Hx]; [by eexists | done].
  - destruct (proj2 Hb) as [x Hx]; [by eexists | done].
Qed.

Lemma model_hasattr_alike (m m' : model) (a : string) :
  (declares m a ↔ declares m' a) → model_hasattr m a = model_hasattr m' a.
Proof.
  unfold declares, model_hasattr. intros H.
  destruct (decide (is_Some (m !! a))) as [Hs | Hn].
  - rewrite !bool_decide_eq_true_2; [done | by apply H | done].
  - rewrite !bool_decide_eq_false_2; [done | by rewrite <- H | done].
Qed.

(** Two models that declare the same ones of the six identity columns give
    the same fields and values, and the same exception, on every key. *)
Lemma conditions_alike (m m' : model) (k : key) :
  (∀ a, a ∈ ["radio"; "mcc"; "mnc"; "lac"; "psc"; "cid"] →
        (declares m a ↔ declares m' a)) →
  conditions (join_cellkey m k) = conditions (join_cellkey m' k).
Proof.
  intros H. rewrite !conditions_join_cellkey.
  rewrite (first_undeclared_alike m m' ["radio"; "mcc"; "mnc"; "lac"])
    by (intros a Ha; apply H; revert Ha; rewrite !elem_of_cons; tauto).
  rewrite (model_hasattr_alike m m' "psc")
    by (apply H; rewrite !elem_of_cons; tauto).
  rewrite (model_hasattr_alike m m' "cid")
    by (apply H; rewrite !elem_of_cons; tauto).
  done.
Qed.

(** On one model the predicate depends on the key only through its area
    fields and through those of psc and cid that the model declares. *)
Lemma join_cellkey_key_fields (m : model) (k k' : key) :
  (∀ a, a ∈ ["radio"; "mcc"; "mnc"; "lac"] →
        key_fields k !! a = key_fields k' !! a) →
  (declares m "psc" → key_fields k !! "psc" = key_fields k' !! "psc") →
  (declares m "cid" → key_fields k !! "cid" = key_fields k' !! "cid") →
  join_cellkey m k = join_cellkey m k'.
Proof.
  intros H Hpsc Hcid. unfold declares in *.
  unfold join_cellkey, key_hasattr, model_hasattr, model_getattr_default.
  rewrite (eq_on_key_fields m k k' "radio")
    by (apply H; rewrite !elem_of_cons; tauto).
  rewrite (eq_on_key_fields m k k' "mcc")
    by (apply H; rewrite !elem_of_cons; tauto).
  rewrite (eq_on_key_fields m k k' "mnc")
    by (apply H; rewrite !elem_of_cons; tauto).
  rewrite (eq_on_key_fields m k k' "lac")
    by (apply H; rewrite !elem_of_cons; tauto).
  rewrite !key_psc_isinstance, <- !key_fields_psc.
  destruct (m !! "psc") as [cp |] eqn:Mp; simpl is_not_None.
  - rewrite (eq_on_key_fields m k k' "psc") by (apply Hpsc; by eexists).
    rewrite Hpsc by by eexists.
    destruct (m !! "cid") as [cc |] eqn:Mc.
    + rewrite (eq_on_key_fields m k k' "cid") by (apply Hcid; by eexists).
      rewrite Hcid by by eexists. done.
    + rewrite (bool_decide_eq_false_2 (is_Some None)) by by intros [c Hc].
      done.
  - rewrite !andb_false_r.
    destruct (m !! "cid") as [cc |] eqn:Mc.
    + rewrite (eq_on_key_fields m k k' "cid") by (apply Hcid; by eexists).
      rewrite Hcid by by eexists. done.
    + rewrite (bool_decide_eq_false_2 (is_Some None)) by by intros [c Hc].
      done.
Qed.

(** A normalizer depends on the source through the lookups of its
    required fields. *)
Lemma to_cellkey_lookups (obj obj' : source) :
  (∀ a, a ∈ cellkey_required → lookup_field obj a = lookup_field obj' a) →
  to_cellkey obj = to_cellkey obj'.
Proof.
  intros H. rewrite !to_cellkey_unfold. unfold cellkey_required in H.
  rewrite (H "radio") by (rewrite !elem_of_cons; tauto).
  rewrite (H "mcc") by (rewrite !elem_of_cons; tauto).
  rewrite (H "mnc") by (rewrite !elem_of_cons; tauto).
  rewrite (H "lac") by (rewrite !elem_of_cons; tauto).
  rewrite (H "cid") by (rewrite !elem_of_cons; tauto).
  done.
Qed.

Lemma to_cellkey_psc_lookups (obj obj' : source) :
  (∀ a, a ∈ cellkey_psc_required → lookup_field obj a = lookup_field obj' a) →
  to_cellkey_psc obj = to_cellkey_psc obj'.
Proof.
  intros H. rewrite !to_cellkey_psc_unfold. unfold cellkey_psc_required in H.
  rewrite (H "radio") by (rewrite !elem_of_cons; tauto).
  rewrite (H "mcc") by (rewrite !elem_of_cons; tauto).
  rewrite (H "mnc") by (rewrite !elem_of_cons; tauto).
  rewrite (H "lac") by (rewrite !elem_of_cons; tauto).
  rewrite (H "cid") by (rewrite !elem_of_cons; tauto).
  rewrite (H "psc") by (rewrite !elem_of_cons; tauto).
  done.
Qed.

(** C7, amended: keys, predicates and bounding boxes are functions of their
    inputs, and of these parts of them alone: a key depends only on what
    the lookups of the five (or six) identity fields of the source give; a
    predicate depends on the key only through its four area fields and
    those of psc and cid that the model declares and, in its fields and
    values, on the model only through which of the six identity columns
    it declares; the latitude bounds depend only on lat and range
    and the longitude bounds only on lat, lon and range.  An entity is a
    function of the keyword arguments and of what the clock answers to the
    constructor's readings: two invocations on equal arguments yield equal
    entities when the arguments supply the timestamps the constructor
    would otherwise take from the clock (created and modified, or time for
    [CellBlacklist]), and also when the clock gives both invocations the
    same first two readings. *)
Theorem outputs_deterministic :
  (∀ obj obj' : source,
     ((∀ a, a ∈ cellkey_required →
            lookup_field obj a = lookup_field obj' a) →
      to_cellkey obj = to_cellkey obj') ∧
     ((∀ a, a ∈ cellkey_psc_required →
            lookup_field obj a = lookup_field obj' a) →
      to_cellkey_psc obj = to_cellkey_psc obj')) ∧
  (∀ (m m' : model) (k k' : key),
     ((∀ a, a ∈ ["radio"; "mcc"; "mnc"; "lac"] →
            key_fields k !! a = key_fields k' !! a) →
      (declares m "psc" → key_fields k !! "psc" = key_fields k' !! "psc") →
      (declares m "cid" → key_fields k !! "cid" = key_fields k' !! "cid") →
      join_cellkey m k = join_cellkey m k') ∧
     ((∀ a, a ∈ ["radio"; "mcc"; "mnc"; "lac"; "psc"; "cid"] →
            (declares m a ↔ declares m' a)) →
      conditions (join_cellkey m k) = conditions (join_cellkey m' k))) ∧
  (∀ c c' : Geocalc.OCIDCell_row,
     Geocalc.lat c = Geocalc.lat c' →
     Geocalc.range c = Geocalc.range c' →
     Geocalc.min_lat c = Geocalc.min_lat c' ∧
     Geocalc.max_lat c = Geocalc.max_lat c' ∧
     (Geocalc.lon c = Geocalc.lon c' →
      Geocalc.min_lon c = Geocalc.min_lon c' ∧
      Geocalc.max_lon c = Geocalc.max_lon c')) ∧
  (∀ (World : Type) (utcnow : World → Z * World) (kind : entity_kind)
     (kw kw' : kwargs) (w w' : World),
     kw = kw' → timestamps_supplied kind kw →
     (construct utcnow kind kw w).1 = (construct utcnow kind kw' w').1 ∧
     (construct utcnow kind kw w).2 = w) ∧
  (∀ (World : Type) (utcnow : World → Z * World) (kind : entity_kind)
     (kw kw' : kwargs) (w w' : World),
     kw = kw' →
     (utcnow w).1 = (utcnow w').1 →
     (utcnow (utcnow w).2).1 = (utcnow (utcnow w').2).1 →
     (construct utcnow kind kw w).1 = (construct utcnow kind kw' w').1).
Proof.
  split; [| split; [| split; [| split]]].
  - intros obj obj'. split;
      [apply to_cellkey_lookups | apply to_cellkey_psc_lookups].
  - intros m m' k k'. split;
      [apply join_cellkey_key_fields | apply conditions_alike].
  - intros c c' Hlat Hrange.
    unfold Geocalc.min_lat, Geocalc.max_lat, Geocalc.min_lon, Geocalc.max_lon.
    rewrite Hlat, Hrange.
    split; [done | split; [done | intros Hlon; by rewrite Hlon]].
  - intros World utcnow kind kw kw' w w' <- Hsup.
    by apply construct_timestamps_supplied.
  - intros World utcnow kind kw kw' w w' <- R1 R2.
    by apply construct_same_readings.
Qed.

(** ** Columns that are not identity columns *)

(** Columns other than the six identity columns play no part: adding one
    to a model leaves the fields and values of the predicate, or the
    exception raised, as they were.  So [OCIDCell], which adds changeable,
    gives conditions on the same fields with the same values as [Cell]. *)
Theorem join_cellkey_other_column (m : model) (k : key) (a : string)
    (c : Column) :
  a ∉ ["radio"; "mcc"; "mnc"; "lac"; "psc"; "cid"] →
  conditions (join_cellkey (<[a := c]> m) k) = conditions (join_cellkey m k).
Proof.
  intros Ha. apply conditions_alike. intros b Hb. unfold declares.
  rewrite lookup_insert_ne; [done |]. by intros ->.
Qed.

Lemma join_cellkey_other_column_witness :
  conditions (join_cellkey OCIDCell
    (KCell (mkCellKey (VInt 1) (VInt 204) (VInt 10) (VInt 1234) (VInt 5678))))
  = conditions (join_cellkey Cell
      (KCell (mkCellKey (VInt 1) (VInt 204) (VInt 10) (VInt 1234) (VInt 5678)))).
Proof.
  apply (join_cellkey_other_column CellMixin
    (KCell (mkCellKey (VInt 1) (VInt 204) (VInt 10) (VInt 1234) (VInt 5678)))
    "changeable" (mkColumn Boolean false)).
  rewrite !not_elem_of_cons. repeat split; done || apply not_elem_of_nil.
Defined.
